(** * wyoming-whisper-api-client: the entry point and the session core

    A shallow embedding of [wyoming_whisper_api_client/__main__.py]:
    the command-line surface built with [argparse], the capability
    descriptor, the single [asyncio.Lock] and the handler factory given to
    [AsyncServer.run].  The per-connection handler class lives in
    [handler.py]; its behaviour is modelled from the specification and
    marked as such. *)

From Stdlib Require Import ZArith QArith String Ascii.
From Stdlib.Strings Require Import Byte.
From stdpp Require Import base gmap strings list.

Local Open Scope string_scope.
Local Open Scope list_scope.

(** ** Python values that appear in the argument namespace *)

Inductive PyVal :=
  | PyNone
  | PyBool (b : bool)
  | PyStr (s : string)
  | PyFloat (q : Q)
  | PyList (l : list string).

(** [os.environ] is a mapping from names to strings. *)
Definition os_environ_get (environ : gmap string string) (k : string) : PyVal :=
  match environ !! k with
  | Some v => PyStr v
  | None => PyNone
  end.

(** ** String helpers used by the option scanner *)

Module Str.

Definition startswith (s p : string) : bool := String.prefix p s.

Fixpoint contains (c : ascii) (s : string) : bool :=
  match s with
  | EmptyString => false
  | String a r => Ascii.eqb a c || contains c r
  end.

(** [s.split(c, 1)] when [c] occurs in [s]. *)
Fixpoint split1 (c : ascii) (s : string) : option (string * string) :=
  match s with
  | EmptyString => None
  | String a r =>
      if Ascii.eqb a c then Some (EmptyString, r)
      else match split1 c r with
           | Some (l, t) => Some (String a l, t)
           | None => None
           end
  end.

(** [s.lstrip(c)] *)
Fixpoint lstrip (c : ascii) (s : string) : string :=
  match s with
  | String a r => if Ascii.eqb a c then lstrip c r else s
  | EmptyString => EmptyString
  end.

(** [s.replace(c, d)] for single characters *)
Fixpoint replace (c d : ascii) (s : string) : string :=
  match s with
  | EmptyString => EmptyString
  | String a r => String (if Ascii.eqb a c then d else a) (replace c d r)
  end.

Definition is_digit (a : ascii) : bool :=
  let n := nat_of_ascii a in (48 <=? n)%nat && (n <=? 57)%nat.

Fixpoint all_digits (s : string) : bool :=
  match s with
  | EmptyString => true
  | String a r => is_digit a && all_digits r
  end.

Definition nonempty (s : string) : bool :=
  match s with EmptyString => false | _ => true end.

(** Drop one final line feed: a [$] of Python's [re] also matches just
    before it. *)
Fixpoint chomp (s : string) : string :=
  match s with
  | EmptyString => EmptyString
  | String a EmptyString => if Ascii.eqb a "010" then EmptyString else s
  | String a r => String a (chomp r)
  end.

Definition eqb_in (s : string) (l : list string) : bool :=
  existsb (String.eqb s) l.

End Str.

(** ** argparse

    The part of CPython's [argparse] that a parser with optional arguments
    only exercises, following the algorithm of CPython 3.11: option strings
    given exactly, the [--long=value] form, unique prefixes of long
    options, a value attached to a short option, runs of short flags, the
    [--] separator, and the [store], [store_true], [version] and [help]
    actions.  Command-line strings are taken to be ASCII.  Messages written
    to the standard streams are left out; an exit keeps its status code.
    [_get_values] removes the first [--] from the argument strings of an
    action, so that a value that is exactly [--], attached to its option
    with [=] or to a short flag, is stored as the empty list. *)

Module Argparse.

Inductive Action :=
  | Store
  | StoreTrue
  | Version (version : string)
  | Help.

Record Argument := {
  option_strings : list string;
  dest : string;
  required : bool;
  default : PyVal;
  action : Action
}.

(** A parser is the list [_actions], in the order of registration. *)
Definition ArgumentParser := list Argument.

Definition is_long (o : string) : bool :=
  match o with
  | String _ (String c _) => Ascii.eqb c "-"
  | _ => false
  end.

(** [_get_optional_kwargs]: the destination is the first long option
    string, or else the first option string, without its dashes and with
    the inner dashes turned into underscores. *)
Definition infer_dest (flags : list string) : string :=
  let dest_option_string :=
    match filter (fun o => is_long o = true) flags with
    | o :: _ => o
    | [] => match flags with o :: _ => o | [] => EmptyString end
    end in
  Str.replace "-" "_" (Str.lstrip "-" dest_option_string).

(** [add_argument(flags.., action, required, default)]; a
    [default] that is not passed is [None] for [store] and [False] for
    [store_true]. *)
Definition add_argument (flags : list string) (act : Action)
    (req : bool) (dflt : option PyVal) (p : ArgumentParser) : ArgumentParser :=
  p ++ [ {| option_strings := flags;
            dest := infer_dest flags;
            required := req;
            default := match dflt, act with
                       | Some v, _ => v
                       | None, StoreTrue => PyBool false
                       | None, _ => PyNone
                       end;
            action := act |} ].

(** [ArgumentParser()] registers [-h/--help] first. *)
Definition new_parser : ArgumentParser :=
  [ {| option_strings := ["-h"; "--help"]; dest := "help";
       required := false; default := PyNone; action := Help |} ].

(** [help] and [version] have [dest=SUPPRESS]: they never write an
    attribute. *)
Definition writes_dest (a : Argument) : bool :=
  match action a with
  | Store | StoreTrue => true
  | Version _ | Help => false
  end.

(** [nargs]: [store] takes one argument string, the others none. *)
Definition takes_value (a : Argument) : bool :=
  match action a with Store => true | _ => false end.

(** [_option_string_actions[o]] *)
Definition find_option (p : ArgumentParser) (o : string) : option Argument :=
  List.find (fun a => Str.eqb_in o (option_strings a)) p.

(** All pairs of [_option_string_actions], in insertion order. *)
Definition option_items (p : ArgumentParser) : list (string * Argument) :=
  flat_map (fun a => map (fun o => (o, a)) (option_strings a)) p.

Definition OptionTuple : Type := option Argument * string * option string.

(** [_get_option_tuples] *)
Definition get_option_tuples (p : ArgumentParser) (arg : string)
    : list OptionTuple :=
  match arg with
  | String c1 (String c2 rest) =>
      if negb (Ascii.eqb c1 "-") then []
      else if Ascii.eqb c2 "-" then
        let '(option_prefix, explicit_arg) :=
          match Str.split1 "=" arg with
          | Some (l, r) => (l, Some r)
          | None => (arg, None)
          end in
        flat_map (fun '(o, a) =>
                    if Str.startswith o option_prefix
                    then [(Some a, o, explicit_arg)] else [])
                 (option_items p)
      else
        let short_option_prefix := String c1 (String c2 EmptyString) in
        flat_map (fun '(o, a) =>
                    if String.eqb o short_option_prefix
                    then [(Some a, o, Some rest)]
                    else if Str.startswith o arg
                    then [(Some a, o, None)] else [])
                 (option_items p)
  | _ => []
  end.

(** [_negative_number_matcher]: [^-\d+$|^-\d*\.\d+$] *)
Definition negative_number (arg : string) : bool :=
  match Str.chomp arg with
  | String c r =>
      Ascii.eqb c "-"
      && ((Str.nonempty r && Str.all_digits r)
          || match Str.split1 "." r with
             | Some (l, t) =>
                 Str.all_digits l && Str.nonempty t && Str.all_digits t
             | None => false
             end)
  | EmptyString => false
  end.

Inductive Classified :=
  | Positional
  | Optional (t : OptionTuple)
  | Ambiguous.

(** [_parse_optional]; no option of the parsers built here looks like a
    negative number. *)
Definition parse_optional (p : ArgumentParser) (arg : string) : Classified :=
  match arg with
  | EmptyString => Positional
  | String c r =>
      if negb (Ascii.eqb c "-") then Positional
      else match find_option p arg with
      | Some a => Optional (Some a, arg, None)
      | None =>
          if negb (Str.nonempty r) then Positional
          else
            let by_equals :=
              match Str.split1 "=" arg with
              | Some (o, e) =>
                  match find_option p o with
                  | Some a => Some (Some a, o, Some e)
                  | None => None
                  end
              | None => None
              end in
            match by_equals with
            | Some t => Optional t
            | None =>
                match get_option_tuples p arg with
                | _ :: _ :: _ => Ambiguous
                | [t] => Optional t
                | [] =>
                    if negative_number arg then Positional
                    else if Str.contains " " arg then Positional
                    else Optional (None, arg, None)
                end
            end
      end
  end.

(** The letters of [arg_strings_pattern]. *)
Inductive Pat :=
  | PA
  | PDash
  | PO (t : OptionTuple).

(** First pass of [_parse_known_args]: everything after [--] is an
    argument; an ambiguous abbreviation is an error before any action
    runs. *)
Fixpoint classify (p : ArgumentParser) (after_dashes : bool)
    (args : list string) : option (list (string * Pat)) :=
  match args with
  | [] => Some []
  | s :: rest =>
      if after_dashes then
        match classify p true rest with
        | Some l => Some ((s, PA) :: l)
        | None => None
        end
      else if String.eqb s "--" then
        match classify p true rest with
        | Some l => Some ((s, PDash) :: l)
        | None => None
        end
      else
        match parse_optional p s with
        | Ambiguous => None
        | Positional =>
            match classify p false rest with
            | Some l => Some ((s, PA) :: l)
            | None => None
            end
        | Optional t =>
            match classify p false rest with
            | Some l => Some ((s, PO t) :: l)
            | None => None
            end
        end
  end.

(** The namespace, the actions seen and the strings nobody consumed. *)
Record State := {
  namespace : gmap string PyVal;
  seen : list (list string);
  extras : list string
}.

Inductive Result :=
  | Parsed (ns : gmap string PyVal)
  | SystemExit (code : Z).

(** [list.remove(x)], leaving the list as it is when [x] is absent. *)
Fixpoint remove_first (x : string) (l : list string) : list string :=
  match l with
  | [] => []
  | y :: r => if String.eqb y x then r else y :: remove_first x r
  end.

(** [_get_values] for an action without [type] and [choices]: the first
    [--] is dropped from the argument strings; one string left is the
    value, anything else is stored as a list. *)
Definition get_values (arg_strings : list string) : PyVal :=
  match remove_first "--" arg_strings with
  | [v] => PyStr v
  | l => PyList l
  end.

(** [take_action]: one action invocation. *)
Definition take_action (a : Argument) (values : list string) (st : State)
    : State + Z :=
  let st' := {| namespace := namespace st;
                seen := option_strings a :: seen st;
                extras := extras st |} in
  match action a with
  | Store =>
      inl {| namespace := <[dest a := get_values values]> (namespace st');
             seen := seen st'; extras := extras st' |}
  | StoreTrue =>
      inl {| namespace := <[dest a := PyBool true]> (namespace st');
             seen := seen st'; extras := extras st' |}
  | Version _ => inr 0%Z
  | Help => inr 0%Z
  end.

Fixpoint take_actions (tuples : list (Argument * list string)) (st : State)
    : State + Z :=
  match tuples with
  | [] => inl st
  | (a, vs) :: rest =>
      match take_action a vs st with
      | inl st' => take_actions rest st'
      | inr c => inr c
      end
  end.

(** What the loop of [consume_optional] decides for one option string:
    the action tuples collected, and whether the last action still wants
    the next argument string. *)
Inductive Consumed :=
  | Tuples (done : list (Argument * list string)) (pending : option Argument)
  | Unknown
  | Error.

(** The iterations of [consume_optional] that carry an explicit
    argument. *)
Fixpoint consume_explicit (p : ArgumentParser) (a : Argument)
    (option_string : string) (explicit_arg : string)
    (acc : list (Argument * list string)) : Consumed :=
  if takes_value a then Tuples (acc ++ [(a, [explicit_arg])]) None
  else if is_long option_string then Error
  else
    match explicit_arg with
    | EmptyString => Error
    | String c new_explicit_arg =>
        match find_option p (String "-" (String c EmptyString)) with
        | None => Error
        | Some a' =>
            match new_explicit_arg with
            | EmptyString =>
                if takes_value a' then Tuples (acc ++ [(a, [])]) (Some a')
                else Tuples (acc ++ [(a, []); (a', [])]) None
            | String _ _ =>
                consume_explicit p a' (String "-" (String c EmptyString))
                  new_explicit_arg (acc ++ [(a, [])])
            end
        end
    end.

Definition consume_optional (p : ArgumentParser) (t : OptionTuple) : Consumed :=
  match t with
  | (None, _, _) => Unknown
  | (Some a, o, Some e) => consume_explicit p a o e []
  | (Some a, _, None) =>
      if takes_value a then Tuples [] (Some a) else Tuples [(a, [])] None
  end.

(** Second pass of [_parse_known_args] for a parser without positional
    arguments: argument strings that no option consumes are extras. *)
Fixpoint consume (p : ArgumentParser) (toks : list (string * Pat))
    (st : State) : State + Z :=
  match toks with
  | [] => inl st
  | (s, PA) :: rest | (s, PDash) :: rest =>
      consume p rest {| namespace := namespace st; seen := seen st;
                        extras := extras st ++ [s] |}
  | (s, PO t) :: rest =>
      match consume_optional p t with
      | Error => inr 2%Z
      | Unknown =>
          consume p rest {| namespace := namespace st; seen := seen st;
                            extras := extras st ++ [s] |}
      | Tuples done None =>
          match take_actions done st with
          | inl st' => consume p rest st'
          | inr c => inr c
          end
      | Tuples done (Some a) =>
          match rest with
          | (v, PA) :: rest' =>
              match take_actions (done ++ [(a, [v])]) st with
              | inl st' => consume p rest' st'
              | inr c => inr c
              end
          | _ => inr 2%Z
          end
      end
  end.

(** Defaults are written before any argument string is read. *)
Definition with_defaults (p : ArgumentParser) : gmap string PyVal :=
  fold_left
    (fun ns a =>
       if writes_dest a then
         match ns !! dest a with
         | Some _ => ns
         | None => <[dest a := default a]> ns
         end
       else ns)
    p ∅.

Definition was_seen (st : State) (a : Argument) : bool :=
  existsb (fun o => bool_decide (o = option_strings a)) (seen st).

Definition missing_required (p : ArgumentParser) (st : State) : bool :=
  existsb (fun a => required a && negb (was_seen st a)) p.

(** [parse_known_args]: the final state, or the exit status. *)
Definition parse_known_args (p : ArgumentParser) (args : list string)
    : State + Z :=
  match classify p false args with
  | None => inr 2%Z
  | Some toks =>
      match consume p toks {| namespace := with_defaults p; seen := [];
                              extras := [] |} with
      | inr c => inr c
      | inl st => if missing_required p st then inr 2%Z else inl st
      end
  end.

(** [parse_args]: exit status 2 for every usage error, 0 after [help] or
    [version]. *)
Definition parse_args (p : ArgumentParser) (args : list string) : Result :=
  match parse_known_args p args with
  | inr c => SystemExit c
  | inl st =>
      match extras st with
      | [] => Parsed (namespace st)
      | _ :: _ => SystemExit 2
      end
  end.

(** Whether the option with these option strings was given in [args]:
    whether the parse invoked its action. *)
Definition was_given (p : ArgumentParser) (flags : list string)
    (args : list string) : bool :=
  match parse_known_args p args with
  | inl st => existsb (fun o => bool_decide (o = flags)) (seen st)
  | inr _ => false
  end.

End Argparse.

Import Argparse.

(** ** The capability descriptor ([wyoming.info]) *)

Module Attribution.
Record t := { name : string; url : string }.
End Attribution.

Module AsrModel.
Record t := {
  name : string;
  description : string;
  attribution : Attribution.t;
  installed : bool;
  languages : list string;
  version : string
}.
End AsrModel.

Module AsrProgram.
Record t := {
  name : string;
  description : string;
  attribution : Attribution.t;
  installed : bool;
  version : string;
  models : list AsrModel.t
}.
End AsrProgram.

(** [Info]: the service lists other than [asr] keep their empty default. *)
Module Info.
Record t := { asr : list AsrProgram.t }.
End Info.

(** ** The process: environment, object store and effects *)

(** Objects are referred to by their address in the store, so that two
    names for one object are told apart from two equal objects. *)
Definition loc := nat.

Inductive Obj :=
  | ONamespace (ns : gmap string PyVal)
  | OInfo (i : Info.t)
  | OServer (uri : string)
  | OLock (locked : bool).

Inductive LogLevel := DEBUG | INFO.

Inductive Effect :=
  | BasicConfig (level : LogLevel) (format : PyVal)
  | LogArgs (level : LogLevel) (args : loc)
  | LogMsg (level : LogLevel) (msg : string)
  | Alloc (l : loc).

Record World := {
  environ : gmap string string;
  heap : list Obj;
  trace : list Effect
}.

Definition init_world (env : gmap string string) : World :=
  {| environ := env; heap := []; trace := [] |}.

Inductive Exn :=
  | ValueError
  | AttributeError (attr : string)
  | TypeError.

Inductive Outcome (A : Type) :=
  | Ret (a : A) (w : World)
  | Exit (code : Z) (w : World)
  | Raise (e : Exn) (w : World).
Arguments Ret {A} a w.
Arguments Exit {A} code w.
Arguments Raise {A} e w.

Definition M (A : Type) : Type := World -> Outcome A.

Definition ret {A} (a : A) : M A := fun w => Ret a w.

Definition bind {A B} (c : M A) (k : A -> M B) : M B :=
  fun w =>
    match c w with
    | Ret a w' => k a w'
    | Exit code w' => Exit code w'
    | Raise e w' => Raise e w'
    end.

Notation "x <- c ;; k" := (bind c (fun x => k))
  (at level 100, c at next level, right associativity).
Notation "c ;;; k" := (bind c (fun _ => k))
  (at level 100, right associativity).

Definition raise {A} (e : Exn) : M A := fun w => Raise e w.

Definition sys_exit {A} (code : Z) : M A := fun w => Exit code w.

Definition emit (e : Effect) : M unit :=
  fun w => Ret tt {| environ := environ w; heap := heap w;
                     trace := trace w ++ [e] |}.

(** Constructing an object: a fresh address, recorded in the trace. *)
Definition new (o : Obj) : M loc :=
  fun w =>
    let l := length (heap w) in
    Ret l {| environ := environ w; heap := heap w ++ [o];
             trace := trace w ++ [Alloc l] |}.

Definition getenv (k : string) : M PyVal :=
  fun w => Ret (os_environ_get (environ w) k) w.

(** [getattr(args, k)] on a namespace in the store. *)
Definition getattr (args : loc) (k : string) : M PyVal :=
  fun w =>
    match heap w !! args with
    | Some (ONamespace ns) =>
        match ns !! k with
        | Some v => Ret v w
        | None => Raise (AttributeError k) w
        end
    | _ => Raise (AttributeError k) w
    end.

Definition truthy (v : PyVal) : bool :=
  match v with
  | PyNone => false
  | PyBool b => b
  | PyStr s => Str.nonempty s
  | PyFloat q => negb (Qeq_bool q 0)
  | PyList l => match l with [] => false | _ :: _ => true end
  end.

(** ** The handler factory *)

(** A connection as the server hands it over: the reader and writer pair. *)
Definition Conn := nat.

(** The positional arguments a [WhisperAPIEventHandler] is constructed
    with. *)
Record HandlerArgs := WhisperAPIEventHandler {
  wyoming_info : loc;
  cli_args : loc;
  model_lock : loc;
  stream : Conn
}.

(** [functools.partial] with three arguments fixed. *)
Definition partial {A B C R T} (f : A -> B -> C -> R -> T) (a : A) (b : B)
    (c : C) : R -> T :=
  fun r => f a b c r.

(** What [main] has in hand when it awaits [server.run]. *)
Record Running := {
  server : loc;
  handler_factory : Conn -> HandlerArgs
}.

Notation "p |> f" := (f p) (at level 50, left associativity, only parsing).

(** ** logging

    [logging.basicConfig(level=.., format=..)] on a root logger without
    handlers builds a [Formatter] of the [%] style, which validates the
    format string before anything is configured. *)

Module Logging.

(** [logging.BASIC_FORMAT] *)
Definition BASIC_FORMAT : string := "%(levelname)s:%(name)s:%(message)s".

(** [\w] on ASCII *)
Definition is_word (a : ascii) : bool :=
  let n := nat_of_ascii a in
  Str.is_digit a
  || ((65 <=? n)%nat && (n <=? 90)%nat)
  || ((97 <=? n)%nat && (n <=? 122)%nat)
  || (n =? 95)%nat.

(** [[#0+ -]] *)
Definition is_flag (a : ascii) : bool :=
  Ascii.eqb a "#" || Ascii.eqb a "0" || Ascii.eqb a "+" || Ascii.eqb a " "
  || Ascii.eqb a "-".

(** [[diouxefgcrsa%]] under [re.I] *)
Definition is_conversion (a : ascii) : bool :=
  let n := nat_of_ascii a in
  let lower := if ((65 <=? n)%nat && (n <=? 90)%nat)
               then ascii_of_nat (n + 32) else a in
  existsb (Ascii.eqb lower)
    ["d"; "i"; "o"; "u"; "x"; "e"; "f"; "g"; "c"; "r"; "s"; "a"; "%"]%char.

(** The longest prefix of characters in a class, dropped. *)
Fixpoint skip (f : ascii -> bool) (s : string) : string :=
  match s with
  | String a r => if f a then skip f r else s
  | EmptyString => s
  end.

(** [(\*|\d+)?] *)
Definition width (s : string) : string :=
  match s with
  | String a r => if Ascii.eqb a "*" then r else skip Str.is_digit s
  | EmptyString => s
  end.

(** [(\.(\*|\d+))?] *)
Definition precision (s : string) : string :=
  match s with
  | String a (String b r) =>
      if Ascii.eqb a "." then
        if Ascii.eqb b "*" then r
        else if Str.is_digit b then skip Str.is_digit r
        else s
      else s
  | _ => s
  end.

(** [PercentStyle.validation_pattern], matched at the start of [s]:
    [%\(\w+\)[#0+ -]*(\*|\d+)?(\.(\*|\d+))?[diouxefgcrsa%]].  No
    choice of the pattern needs backtracking: a character class never
    overlaps what may follow it, but for [0], which the width takes up
    when the flags leave it. *)
Definition match_here (s : string) : bool :=
  match s with
  | String c1 (String c2 (String c3 r)) =>
      Ascii.eqb c1 "%" && Ascii.eqb c2 "(" && is_word c3
      && match skip is_word r with
         | String c r' =>
             Ascii.eqb c ")"
             && match precision (width (skip is_flag r')) with
                | String k _ => is_conversion k
                | EmptyString => false
                end
         | EmptyString => false
         end
  | _ => false
  end.

(** [validation_pattern.search(fmt)] *)
Fixpoint search (s : string) : bool :=
  match_here s
  || match s with
     | String _ r => search r
     | EmptyString => false
     end.

End Logging.

Import Logging.

Section Main.

(** [__version__] of the package and the constants of [const.py]. *)
Variable __version__ : string.
Variable OPENAI_DEFAULT_MODEL : string.
Variable WHISPER_LANGUAGES : list string.

(** [AsyncServer.from_uri] of the wyoming library accepts some URIs and
    raises [ValueError] on the others. *)
Variable supported_uri : string -> bool.

(** Lines 20-69: the parser; the default of [--openai-api-key] is read
    from the environment while the parser is built. *)
Definition build_parser (openai_api_key_default : PyVal) : ArgumentParser :=
  new_parser
  |> add_argument ["--api"] Store true None
  |> add_argument ["--uri"] Store true None
  |> add_argument ["--openai-api-key"] Store false (Some openai_api_key_default)
  |> add_argument ["-m"; "--openai-model"] Store false
       (Some (PyStr OPENAI_DEFAULT_MODEL))
  |> add_argument ["-l"; "--language"] Store false None
  |> add_argument ["-p"; "--prompt"] Store false None
  |> add_argument ["-t"; "--temperature"] Store false (Some (PyFloat 0))
  |> add_argument ["-d"; "--debug"] StoreTrue false None
  |> add_argument ["--log-format"] Store false (Some (PyStr BASIC_FORMAT))
  |> add_argument ["-V"; "--version"] (Version __version__) false None.

(** Lines 77-103 *)
Definition make_info : Info.t :=
  {| Info.asr :=
       [ {| AsrProgram.name := "whisper-cpp";
            AsrProgram.description := "Faster Whisper transcription via its API";
            AsrProgram.attribution :=
              {| Attribution.name := "Michael Hansen";
                 Attribution.url := "https://github.com/synesthesiam" |};
            AsrProgram.installed := true;
            AsrProgram.version := __version__;
            AsrProgram.models :=
              [ {| AsrModel.name := "whisper.cpp";
                   AsrModel.description := "whisper.cpp";
                   AsrModel.attribution :=
                     {| Attribution.name := "rhasspy wyoming faster whisper";
                        Attribution.url :=
                          "https://github.com/rhasspy/wyoming-faster-whisper" |};
                   AsrModel.installed := true;
                   AsrModel.languages := WHISPER_LANGUAGES;
                   AsrModel.version := "1.0" |} ] |} ] |}.

(** [from_uri] hands its argument to [urlparse], which reads a value
    that is not a string as the empty URL when it is falsy, the empty
    list included: no scheme, and [ValueError]; on any other value it
    calls [decode], which is missing. *)
Definition from_uri (uri : PyVal) : M loc :=
  match uri with
  | PyStr u => if supported_uri u then new (OServer u) else raise ValueError
  | _ => if truthy uri then raise (AttributeError "decode")
         else raise ValueError
  end.

(** [logging.basicConfig(level=level, format=format)] in a process whose
    root logger has no handler yet: [Formatter(format)] takes
    [format or "%(message)s"] and raises [ValueError] when the validation
    pattern finds no field in it. *)
Definition basic_config (level : LogLevel) (format : PyVal) : M unit :=
  if truthy format then
    match format with
    | PyStr fs =>
        if Logging.search fs then emit (BasicConfig level format)
        else raise ValueError
    | _ => raise TypeError
    end
  else emit (BasicConfig level format).

(** [main], up to the point where it awaits [server.run(...)]; [argv] is
    [sys.argv[1:]], which [parse_args()] reads. *)
Definition main (argv : list string) : M Running :=
  key <- getenv "OPENAI_API_KEY" ;;
  let parser := build_parser key in
  match parse_args parser argv with
  | SystemExit code => sys_exit code
  | Parsed ns =>
      args <- new (ONamespace ns) ;;
      debug <- getattr args "debug" ;;
      log_format <- getattr args "log_format" ;;
      basic_config (if truthy debug then DEBUG else INFO) log_format ;;;
      emit (LogArgs DEBUG args) ;;;
      wyoming_info <- new (OInfo make_info) ;;
      uri <- getattr args "uri" ;;
      server <- from_uri uri ;;
      emit (LogMsg INFO "Ready") ;;;
      model_lock <- new (OLock false) ;;
      ret {| server := server;
             handler_factory :=
               partial WhisperAPIEventHandler wyoming_info args model_lock |}
  end.

End Main.

(** ** The session core ([handler.py])

    The handler class is not part of the sources at hand.  Its state
    machine, the Concurrency Gate discipline and the backend contract are
    taken from the specification (sections 3 to 7). *)

(** Modelled from the spec: the structured failures of the Backend Client
    (sections 3, 4.1 and 7); handler.py is missing. *)
Inductive Failure :=
  | BackendUnreachable
  | BackendTimeout
  | BackendRejected (status : Z) (body : string)
  | BackendProtocolError.

(** Modelled from the spec: the Transcription Result (section 3);
    handler.py is missing. *)
Inductive TranscriptionResult :=
  | Transcript (text : string)
  | Failed (f : Failure).

(** Modelled from the spec: the outbound events of the front protocol, a
    transcript or an error (section 6); handler.py is missing. *)
Inductive OutEvent :=
  | TranscriptEvent (text : string)
  | ErrorEvent (f : Failure).

(** Modelled from the spec: the overrides carried by a session-start event
    (sections 4.2 and 6); handler.py is missing. *)
Record StartParams := {
  start_language : option string;
  start_prompt : option string;
  start_temperature : option Q
}.

(** Modelled from the spec: the recognition parameters of a session
    (section 3); handler.py is missing. *)
Record Params := {
  language : option string;
  prompt : option string;
  temperature : Q
}.

(** Modelled from the spec: the Transcription Request (sections 3 and 6);
    handler.py is missing. *)
Record Request := {
  audio : list byte;
  req_language : option string;
  req_prompt : option string;
  req_temperature : Q;
  model : PyVal;
  credentials : PyVal
}.

(** Modelled from the spec: the inbound events, as the public contract of
    the state machine lists them (section 4.2); handler.py is missing. *)
Inductive Event :=
  | SessionStart (sp : StartParams)
  | AudioChunk (bytes : list byte)
  | SessionStop
  | Disconnect.

(** Modelled from the spec: the phases of a session (section 4.2); a
    receiving session carries its active parameters; handler.py is
    missing. *)
Inductive Phase :=
  | Idle
  | Receiving (p : Params)
  | Transcribing
  | Closed.

(** Modelled from the spec: where the backend call of a session stands
    with respect to the Gate, waiting for it or holding it (sections 4.2
    and 4.3); handler.py is missing. *)
Inductive Call :=
  | NoCall
  | AwaitingGate (r : Request)
  | InFlight (r : Request).

(** Modelled from the spec: a session (section 3), with the arguments its
    handler was constructed with and the events it has sent on its own
    connection; handler.py is missing. *)
Record Session := {
  ctor : HandlerArgs;
  phase : Phase;
  call : Call;
  connected : bool;
  buffer : list byte;
  sent : list OutEvent
}.

(** Modelled from the spec: the two policies section 8 allows for a
    temperature outside [0,1]; handler.py is missing. *)
Inductive TemperaturePolicy := Clamp | Reject.

(** Modelled from the spec: the clamping of a temperature into [0,1]
    (section 4.1, "temperature must be clamped/validated to [0,1]";
    section 8, "clamping 1.5 always yields 1.0"); handler.py is missing. *)
Definition clamp (t : Q) : Q :=
  if Qle_bool t 0 then 0 else if Qle_bool 1 t then 1 else t.

Definition in_unit_interval (t : Q) : bool := Qle_bool 0 t && Qle_bool t 1.

(** Modelled from the spec: the one policy for temperatures, "clamped or
    rejected consistently" (section 8); handler.py is missing. *)
Definition apply_policy (policy : TemperaturePolicy) (t : Q) : option Q :=
  match policy with
  | Clamp => Some (clamp t)
  | Reject => if in_unit_interval t then Some t else None
  end.

Definition as_str (v : PyVal) : option string :=
  match v with PyStr s => Some s | _ => None end.

(** Modelled from the spec: a session whose Transcription Request is in
    flight against the backend (section 3); handler.py is missing. *)
Definition is_inflight (s : Session) : bool :=
  match call s with InFlight _ => true | _ => false end.

(** Modelled from the spec: a session suspended on the Gate (section 5);
    handler.py is missing. *)
Definition is_awaiting (s : Session) : bool :=
  match call s with AwaitingGate _ => true | _ => false end.

Section Handler.

(** The temperature policy of the deployment, fixed once. *)
Variable policy : TemperaturePolicy.

(** Python's [float] on a string: the number it denotes, or [None] where
    it raises.  The reading of decimal text is not modelled. *)
Variable float_of_str : string -> option Q.

Definition to_float (v : PyVal) : option Q :=
  match v with
  | PyFloat q => Some q
  | PyStr s => float_of_str s
  | _ => None
  end.

(** Modelled from the spec: the temperature a session works with is the
    session-start override, or else the configured default, put through
    the policy (sections 4.1, 4.2 and 8); handler.py is missing. *)
Definition effective_temperature (override : option Q) (configured : PyVal)
    : option Q :=
  match override with
  | Some t => apply_policy policy t
  | None =>
      match to_float configured with
      | Some t => apply_policy policy t
      | None => None
      end
  end.

(** Modelled from the spec: a handler as the dispatcher creates it, in
    [Idle] with an empty buffer (sections 3 and 4.4); handler.py is
    missing. *)
Definition new_session (a : HandlerArgs) : Session :=
  {| ctor := a; phase := Idle; call := NoCall; connected := true;
     buffer := []; sent := [] |}.

(** Modelled from the spec: the configuration "passed into the core as an
    immutable configuration value" (section 6) is the namespace the handler
    was constructed with; handler.py is missing. *)
Definition config_of (h : list Obj) (s : Session) : gmap string PyVal :=
  match h !! cli_args (ctor s) with
  | Some (ONamespace ns) => ns
  | _ => ∅
  end.

Definition config_get (h : list Obj) (s : Session) (k : string) : PyVal :=
  match config_of h s !! k with
  | Some v => v
  | None => PyNone
  end.

(** Modelled from the spec: [onSessionStart]; overrides that are not
    supplied fall back to the process-wide defaults (section 4.2);
    handler.py is missing. *)
Definition on_session_start (h : list Obj) (sp : StartParams) (s : Session)
    : Session :=
  match effective_temperature (start_temperature sp)
          (config_get h s "temperature") with
  | None => s
  | Some t =>
      let p := {| language :=
                    match start_language sp with
                    | Some l => Some l
                    | None => as_str (config_get h s "language")
                    end;
                  prompt :=
                    match start_prompt sp with
                    | Some l => Some l
                    | None => as_str (config_get h s "prompt")
                    end;
                  temperature := t |} in
      {| ctor := ctor s; phase := Receiving p; call := call s;
         connected := connected s; buffer := buffer s; sent := sent s |}
  end.

(** Modelled from the spec: [onAudioChunk] appends the bytes to the
    buffer in arrival order (section 4.2); handler.py is missing. *)
Definition on_audio_chunk (bytes : list byte) (s : Session) : Session :=
  {| ctor := ctor s; phase := phase s; call := call s;
     connected := connected s; buffer := buffer s ++ bytes;
     sent := sent s |}.

(** Modelled from the spec: the Transcription Request derived from the
    session at flush time (section 3); handler.py is missing. *)
Definition make_request (h : list Obj) (p : Params) (s : Session) : Request :=
  {| audio := buffer s;
     req_language := language p;
     req_prompt := prompt p;
     req_temperature := temperature p;
     model := config_get h s "openai_model";
     credentials := config_get h s "openai_api_key" |}.

(** Modelled from the spec: [onSessionStop] enters [Transcribing] and
    waits for the Gate, an empty buffer included (section 4.2);
    handler.py is missing. *)
Definition on_session_stop (h : list Obj) (p : Params) (s : Session)
    : Session :=
  {| ctor := ctor s; phase := Transcribing;
     call := AwaitingGate (make_request h p s);
     connected := connected s; buffer := buffer s; sent := sent s |}.

(** Modelled from the spec: [onDisconnect]; a transport close with
    buffered data still transcribes, and a call that is under way is not
    cancelled (sections 4.2 and 5); handler.py is missing. *)
Definition on_disconnect (h : list Obj) (s : Session) : Session :=
  match phase s with
  | Receiving p =>
      match buffer s with
      | [] =>
          {| ctor := ctor s; phase := Closed; call := call s;
             connected := false; buffer := buffer s; sent := sent s |}
      | _ :: _ =>
          {| ctor := ctor s; phase := Transcribing;
             call := AwaitingGate (make_request h p s);
             connected := false; buffer := buffer s; sent := sent s |}
      end
  | _ =>
      {| ctor := ctor s; phase := Closed; call := call s;
         connected := false; buffer := buffer s; sent := sent s |}
  end.

(** Modelled from the spec: the session state machine; an event that the
    current state does not accept is ignored (section 4.2); handler.py
    is missing. *)
Definition on_event (h : list Obj) (e : Event) (s : Session) : Session :=
  if negb (connected s) then s
  else
    match e, phase s with
    | Disconnect, _ => on_disconnect h s
    | SessionStart sp, Idle => on_session_start h sp s
    | AudioChunk bytes, Receiving _ => on_audio_chunk bytes s
    | SessionStop, Receiving p => on_session_stop h p s
    | _, _ => s
    end.

(** Modelled from the spec: the outcome event of a backend result
    (sections 4.2 and 7); handler.py is missing. *)
Definition outcome_event (r : TranscriptionResult) : OutEvent :=
  match r with
  | Transcript text => TranscriptEvent text
  | Failed f => ErrorEvent f
  end.

(** Modelled from the spec: the end of [Transcribing]; one outcome event,
    the buffer cleared, back to [Idle]; the result is discarded when the
    session was disconnected meanwhile (section 4.2); handler.py is
    missing. *)
Definition on_result (r : TranscriptionResult) (s : Session) : Session :=
  match phase s, connected s with
  | Transcribing, true =>
      {| ctor := ctor s; phase := Idle; call := NoCall;
         connected := true; buffer := [];
         sent := sent s ++ [outcome_event r] |}
  | _, _ =>
      {| ctor := ctor s; phase := Closed; call := NoCall;
         connected := false; buffer := []; sent := sent s |}
  end.

(** ** The dispatcher and the Gate: the serving process *)

(** Modelled from the spec: the serving process, that is the dispatcher
    with its sessions (section 4.4) and the backend calls issued so far;
    handler.py is missing. *)
Record System := {
  world : World;
  factory : Conn -> HandlerArgs;
  sessions : list Session;
  calls : list (nat * Request)
}.

(** The process as [server.run] finds it. *)
Definition boot (r : Running) (w : World) : System :=
  {| world := w; factory := handler_factory r; sessions := []; calls := [] |}.

(** Modelled from the spec: what can happen next in the serving process
    (sections 4.3, 4.4 and 5): the server accepts a connection, the
    environment of the process changes, a session handles an event of its
    connection, is granted the Gate, or sees its backend call resolve;
    handler.py is missing. *)
Inductive Label :=
  | Accept (c : Conn)
  | Setenv (k v : string)
  | Unsetenv (k : string)
  | Deliver (i : nat) (e : Event)
  | Grant (i : nat)
  | Resolve (i : nat) (r : TranscriptionResult).

Definition lock_free (h : list Obj) (l : loc) : bool :=
  match h !! l with
  | Some (OLock false) => true
  | _ => false
  end.

Definition lock_held (h : list Obj) (l : loc) : bool :=
  match h !! l with
  | Some (OLock true) => true
  | _ => false
  end.

Definition set_heap (h : list Obj) (w : World) : World :=
  {| environ := environ w; heap := h; trace := trace w |}.

Definition set_environ (env : gmap string string) (w : World) : World :=
  {| environ := env; heap := heap w; trace := trace w |}.

Definition with_call (c : Call) (s : Session) : Session :=
  {| ctor := ctor s; phase := phase s; call := c;
     connected := connected s; buffer := buffer s; sent := sent s |}.

(** Modelled from the spec: one step of the serving process.  The
    dispatcher hands each accepted connection to the factory, as
    [AsyncServer.run] does; the Gate is acquired before the backend call
    is issued and released when the call resolves, whatever the result
    (sections 4.2, 4.3, 4.4 and 5); handler.py is missing. *)
Definition step (lbl : Label) (σ : System) : System :=
  match lbl with
  | Accept c =>
      {| world := world σ; factory := factory σ;
         sessions := sessions σ ++ [new_session (factory σ c)];
         calls := calls σ |}
  | Setenv k v =>
      {| world := set_environ (<[k := v]> (environ (world σ))) (world σ);
         factory := factory σ; sessions := sessions σ; calls := calls σ |}
  | Unsetenv k =>
      {| world := set_environ (delete k (environ (world σ))) (world σ);
         factory := factory σ; sessions := sessions σ; calls := calls σ |}
  | Deliver i e =>
      match sessions σ !! i with
      | Some s =>
          {| world := world σ; factory := factory σ;
             sessions := <[i := on_event (heap (world σ)) e s]> (sessions σ);
             calls := calls σ |}
      | None => σ
      end
  | Grant i =>
      match sessions σ !! i with
      | Some s =>
          match call s with
          | AwaitingGate r =>
              let l := model_lock (ctor s) in
              if lock_free (heap (world σ)) l then
                {| world := set_heap (<[l := OLock true]> (heap (world σ)))
                              (world σ);
                   factory := factory σ;
                   sessions := <[i := with_call (InFlight r) s]> (sessions σ);
                   calls := calls σ ++ [(i, r)] |}
              else σ
          | _ => σ
          end
      | None => σ
      end
  | Resolve i r =>
      match sessions σ !! i with
      | Some s =>
          match call s with
          | InFlight _ =>
              let l := model_lock (ctor s) in
              {| world := set_heap (<[l := OLock false]> (heap (world σ)))
                            (world σ);
                 factory := factory σ;
                 sessions := <[i := on_result r s]> (sessions σ);
                 calls := calls σ |}
          | _ => σ
          end
      | None => σ
      end
  end.

(** Modelled from the spec: the serving process after a sequence of
    steps; handler.py is missing. *)
Definition run (lbls : list Label) (σ : System) : System :=
  fold_left (fun σ lbl => step lbl σ) lbls σ.

(** Modelled from the spec: the number of backend calls in flight
    (section 8); handler.py is missing. *)
Fixpoint inflight_count (ss : list Session) : nat :=
  match ss with
  | [] => 0
  | s :: rest => (if is_inflight s then 1 else 0) + inflight_count rest
  end.

End Handler.

(** * Properties *)

(** ** What the parser stores for a [store] option *)

(** What one command-line string does for the option whose option
    strings are [flags]: nothing, or it invokes the option's action with
    argument strings it carries itself ([--opt=value], [-ovalue], a flag
    in a run of short flags), or it invokes the action with the string
    that follows as the argument. *)
Inductive Gives :=
  | NotThis
  | Invoked (values : list string)
  | NextString.

(** The argument strings of the last action tuple for the option. *)
Fixpoint last_invocation (flags : list string)
    (done : list (Argument * list string)) : option (list string) :=
  match done with
  | [] => None
  | (a, vs) :: rest =>
      match last_invocation flags rest with
      | Some r => Some r
      | None => if bool_decide (option_strings a = flags) then Some vs
                else None
      end
  end.

Definition gives_of (flags : list string) (c : Consumed) : Gives :=
  match c with
  | Tuples done pending =>
      let carried := match last_invocation flags done with
                     | Some vs => Invoked vs
                     | None => NotThis
                     end in
      match pending with
      | Some a => if bool_decide (option_strings a = flags) then NextString
                  else carried
      | None => carried
      end
  | Unknown | Error => NotThis
  end.

Definition token_gives (p : ArgumentParser) (flags : list string)
    (s : string) : Gives :=
  match parse_optional p s with
  | Optional t => gives_of flags (consume_optional p t)
  | _ => NotThis
  end.

(** The argument strings the command line supplies for the option: those
    of the last string that invokes it; [None] when no string does. *)
Fixpoint supplied (p : ArgumentParser) (flags : list string)
    (argv : list string) : option (list string) :=
  match argv with
  | [] => None
  | s :: rest =>
      match supplied p flags rest with
      | Some vs => Some vs
      | None =>
          match token_gives p flags s with
          | NotThis => None
          | Invoked vs => Some vs
          | NextString =>
              match rest with
              | v :: _ => Some [v]
              | [] => None
              end
          end
      end
  end.

Lemma append_cons (x : ascii) (a b : string) :
  String x a +:+ b = String x (a +:+ b).
Proof. reflexivity. Qed.

Lemma append_assoc (a b c : string) : (a +:+ b) +:+ c = a +:+ (b +:+ c).
Proof.
  induction a as [|x a IH]; [reflexivity |].
  rewrite !append_cons. now rewrite IH.
Qed.

Lemma split1_append c s l r :
  Str.split1 c s = Some (l, r) -> s = l +:+ String c r.
Proof.
  revert l r. induction s as [|a s IH]; intros l r; simpl; [discriminate |].
  destruct (Ascii.eqb_spec a c) as [->|Hne].
  - intros [= <- <-]. reflexivity.
  - destruct (Str.split1 c s) as [[l' t']|]; [|discriminate].
    intros [= <- <-]. rewrite append_cons. f_equal. now apply IH.
Qed.

Section StoreOption.

Variable p : ArgumentParser.
Variable args : list string.

(** The option under study: its option strings, destination, default. *)
Variable flags : list string.
Variable k : string.
Variable d : PyVal.

Hypothesis flags_store : forall a, In a p ->
  option_strings a = flags -> dest a = k /\ action a = Store.
Hypothesis others_elsewhere : forall a, In a p ->
  option_strings a <> flags -> writes_dest a = true -> dest a <> k.

Definition tail_of (tok e : string) : Prop := exists pre, tok = pre +:+ e.

Definition tuple_ok (t : OptionTuple) (tok : string) : Prop :=
  match t with
  | (Some a, _, ex) => In a p /\ forall e, ex = Some e -> tail_of tok e
  | (None, _, _) => True
  end.

Lemma find_option_In o a : find_option p o = Some a -> In a p.
Proof. intros H. now apply find_some in H. Qed.

Lemma option_items_In o a : In (o, a) (option_items p) -> In a p.
Proof.
  unfold option_items. rewrite in_flat_map. intros (a' & Ha' & Hin).
  apply in_map_iff in Hin as (o' & [= _ ->] & _). exact Ha'.
Qed.

Lemma get_option_tuples_ok arg t :
  In t (get_option_tuples p arg) -> tuple_ok t arg.
Proof.
  unfold get_option_tuples.
  destruct arg as [|c1 [|c2 rest]]; try (intros []).
  destruct (Ascii.eqb c1 "-"); simpl negb; cbv iota; [|intros []].
  destruct (Ascii.eqb c2 "-").
  - destruct (Str.split1 "=" (String c1 (String c2 rest)))
      as [[l r]|] eqn:Hsp;
      rewrite in_flat_map; intros ([o a] & Hin & Ht);
      (destruct (Str.startswith o _); [|destruct Ht]);
      destruct Ht as [<-|[]]; (split; [eapply option_items_In; eauto|]).
    + intros e [= <-]. apply split1_append in Hsp.
      exists (l +:+ "="). rewrite append_assoc. exact Hsp.
    + discriminate.
  - rewrite in_flat_map. intros ([o a] & Hin & Ht).
    destruct (String.eqb o _).
    + destruct Ht as [<-|[]]. split; [eapply option_items_In; eauto|].
      intros e [= <-]. exists (String c1 (String c2 EmptyString)).
      reflexivity.
    + destruct (Str.startswith o _); [|destruct Ht].
      destruct Ht as [<-|[]]. split; [eapply option_items_In; eauto|].
      discriminate.
Qed.

Lemma parse_optional_ok arg t :
  parse_optional p arg = Optional t -> tuple_ok t arg.
Proof.
  unfold parse_optional. destruct arg as [|c r]; [discriminate|].
  destruct (negb (Ascii.eqb c "-")); [discriminate|].
  destruct (find_option p (String c r)) as [a|] eqn:Hf.
  { intros [= <-]. split; [eapply find_option_In; eauto | discriminate]. }
  destruct (negb (Str.nonempty r)); [discriminate|].
  destruct (Str.split1 "=" (String c r)) as [[o e]|] eqn:Hsp.
  - destruct (find_option p o) as [a|] eqn:Hfo.
    + intros [= <-]. split; [eapply find_option_In; eauto|].
      intros e' [= <-]. apply split1_append in Hsp.
      exists (o +:+ "="). rewrite append_assoc. exact Hsp.
    + destruct (get_option_tuples p (String c r)) as [|t1 [|t2 l]] eqn:Hg.
      * destruct (negative_number _); [discriminate|].
        destruct (Str.contains _ _); [discriminate|].
        intros [= <-]. exact I.
      * intros [= <-]. apply get_option_tuples_ok. rewrite Hg. now left.
      * discriminate.
  - destruct (get_option_tuples p (String c r)) as [|t1 [|t2 l]] eqn:Hg.
    * destruct (negative_number _); [discriminate|].
      destruct (Str.contains _ _); [discriminate|].
      intros [= <-]. exact I.
    * intros [= <-]. apply get_option_tuples_ok. rewrite Hg. now left.
    * discriminate.
Qed.

Definition tok_ok (full : list string) (x : string * Pat) : Prop :=
  In (fst x) full /\
  match snd x with
  | PO t => tuple_ok t (fst x)
  | _ => True
  end.

Lemma classify_ok full b l toks :
  incl l full -> classify p b l = Some toks -> Forall (tok_ok full) toks.
Proof.
  revert b toks. induction l as [|s rest IH]; intros b toks Hincl; simpl.
  { intros [= <-]. constructor. }
  assert (Hs : In s full) by (apply Hincl; now left).
  assert (Hrest : incl rest full) by (intros x Hx; apply Hincl; now right).
  destruct b.
  { destruct (classify p true rest) eqn:Hc; [|discriminate].
    intros [= <-]. constructor; [now split | eauto]. }
  destruct (String.eqb s "--").
  { destruct (classify p true rest) eqn:Hc; [|discriminate].
    intros [= <-]. constructor; [now split | eauto]. }
  destruct (parse_optional p s) as [|t|] eqn:Hpo; [| |discriminate];
    (destruct (classify p false rest) eqn:Hc; [|discriminate]);
    intros [= <-]; (constructor; [|eauto]).
  - now split.
  - split; [exact Hs|]. simpl. now apply parse_optional_ok.
Qed.

(** Action tuples as [consume_optional] collects them for one string. *)
Definition action_ok (tok : string) (x : Argument * list string) : Prop :=
  In (fst x) p /\
  (takes_value (fst x) = true -> exists v, snd x = [v] /\ tail_of tok v).

Lemma consume_explicit_ok tok e : forall a o acc done pending,
  In a p -> Forall (action_ok tok) acc -> tail_of tok e ->
  consume_explicit p a o e acc = Tuples done pending ->
  Forall (action_ok tok) done /\
  (forall a', pending = Some a' -> In a' p /\ takes_value a' = true).
Proof.
  induction e as [|c e' IH]; intros a o acc done pending Ha Hacc Htail.
  - simpl. destruct (takes_value a) eqn:Htv.
    + intros [= <- <-]. split; [|discriminate].
      apply Forall_app. split; [exact Hacc|].
      constructor; [|constructor]. split; [exact Ha|]. simpl. eauto.
    + destruct (is_long o); discriminate.
  - simpl. destruct (takes_value a) eqn:Htv.
    + intros [= <- <-]. split; [|discriminate].
      apply Forall_app. split; [exact Hacc|].
      constructor; [|constructor]. split; [exact Ha|]. simpl. eauto.
    + destruct (is_long o); [discriminate|].
      destruct (find_option p _) as [a'|] eqn:Hf; [|discriminate].
      assert (Ha' : In a' p) by (eapply find_option_In; eauto).
      assert (Hok : Forall (action_ok tok) (acc ++ [(a, [])])).
      { apply Forall_app. split; [exact Hacc|].
        constructor; [|constructor]. split; [exact Ha|]. simpl.
        rewrite Htv. discriminate. }
      destruct e' as [|c' e''].
      * destruct (takes_value a') eqn:Htv'.
        -- intros [= <- <-]. split; [exact Hok|].
           intros ? [= <-]. now split.
        -- intros [= <- <-]. split; [|discriminate].
           change (acc ++ [(a, []); (a', [])])
             with (acc ++ [(a, [])] ++ [(a', [])]).
           rewrite app_assoc. apply Forall_app. split; [exact Hok|].
           constructor; [|constructor]. split; [exact Ha'|]. simpl.
           rewrite Htv'. discriminate.
      * apply IH; [exact Ha' | exact Hok |].
        destruct Htail as [pre ->]. exists (pre +:+ String c EmptyString).
        rewrite append_assoc. reflexivity.
Qed.

Lemma consume_optional_ok tok t done pending :
  tuple_ok t tok -> consume_optional p t = Tuples done pending ->
  Forall (action_ok tok) done /\
  (forall a', pending = Some a' -> In a' p /\ takes_value a' = true).
Proof.
  destruct t as [[[a|] o] [e|]]; simpl; try discriminate.
  - intros [Ha He]. apply consume_explicit_ok; eauto.
  - intros [Ha _]. destruct (takes_value a) eqn:Htv.
    + intros [= <- <-]. split; [constructor|]. intros ? [= <-]. now split.
    + intros [= <- <-]. split; [|discriminate].
      constructor; [|constructor]. split; [exact Ha|]. simpl.
      rewrite Htv. discriminate.
Qed.

Definition given_in (st : State) : bool :=
  existsb (fun o => bool_decide (o = flags)) (seen st).

Definition in_parser (x : Argument * list string) : Prop := In (fst x) p.

Lemma action_ok_in_parser tok x : action_ok tok x -> in_parser x.
Proof. now intros [Ha _]. Qed.

(** One action: the destination and the mark of the option change only
    when the action is the option's own. *)
Lemma take_action_effect a vs st st' :
  In a p -> take_action a vs st = inl st' ->
  extras st' = extras st /\
  if bool_decide (option_strings a = flags)
  then namespace st' !! k = Some (get_values vs) /\ given_in st' = true
  else namespace st' !! k = namespace st !! k /\
       given_in st' = given_in st.
Proof.
  intros Ha. unfold take_action, given_in.
  destruct (decide (option_strings a = flags)) as [Heq|Hne].
  - destruct (flags_store a Ha Heq) as [Hd Hact]. rewrite Hact.
    intros [= <-]. simpl.
    rewrite !bool_decide_eq_true_2 by exact Heq. simpl.
    rewrite Hd, lookup_insert_eq. now repeat split.
  - pose proof (others_elsewhere a Ha Hne) as Hother.
    unfold writes_dest in Hother.
    destruct (action a) eqn:Hact; try discriminate;
      intros [= <-]; simpl;
      rewrite !bool_decide_eq_false_2 by exact Hne; simpl;
      rewrite lookup_insert_ne by (apply Hother; reflexivity);
      now repeat split.
Qed.

Lemma take_actions_effect done : forall st st',
  Forall in_parser done -> take_actions done st = inl st' ->
  extras st' = extras st /\
  match last_invocation flags done with
  | Some vs => namespace st' !! k = Some (get_values vs) /\
               given_in st' = true
  | None => namespace st' !! k = namespace st !! k /\
            given_in st' = given_in st
  end.
Proof.
  induction done as [|[a vs] rest IH]; intros st st' Hall; simpl.
  - intros [= <-]. now repeat split.
  - inversion Hall as [|x l Hx Hl]; subst. unfold in_parser in Hx.
    simpl in Hx.
    destruct (take_action a vs st) as [st1|c] eqn:Hta; [|discriminate].
    intros Hrest. destruct (IH _ _ Hl Hrest) as [He Hlast].
    destruct (take_action_effect _ _ _ _ Hx Hta) as [He1 Hone].
    split; [congruence|].
    destruct (last_invocation flags rest) as [r|]; [exact Hlast|].
    destruct Hlast as [Hns Hg].
    destruct (bool_decide (option_strings a = flags)).
    + destruct Hone as [Hns1 Hg1]. split; congruence.
    + destruct Hone as [Hns1 Hg1]. split; congruence.
Qed.

Lemma last_invocation_app done a v :
  last_invocation flags (done ++ [(a, v)])
  = if bool_decide (option_strings a = flags) then Some v
    else last_invocation flags done.
Proof.
  induction done as [|[a' vs'] rest IH]; simpl.
  - reflexivity.
  - rewrite IH. destruct (bool_decide (option_strings a = flags));
      [reflexivity|].
    reflexivity.
Qed.

(** A parse that leaves no string over has consumed every string: none
    of them was [--], an unknown option, or an argument with no option
    to take it. *)
Lemma consume_no_extras n : forall toks st st',
  (length toks <= n)%nat ->
  consume p toks st = inl st' -> extras st' = [] ->
  extras st = [] /\ Forall (fun x => snd x <> PDash) toks.
Proof.
  induction n as [|n IH]; intros toks st st' Hlen.
  { destruct toks; [|simpl in Hlen; lia]. simpl.
    intros [= <-] He. now split. }
  destruct toks as [|[s pat] rest]; [simpl; intros [= <-] He; now split|].
  simpl in Hlen. simpl.
  assert (Hl : (length rest <= n)%nat) by lia.
  assert (Hextra : consume p rest
            {| namespace := namespace st; seen := seen st;
               extras := extras st ++ [s] |} = inl st' ->
          extras st' = [] ->
          extras st = [] /\
          Forall (fun x => snd x <> PDash) ((s, pat) :: rest)).
  { intros Hc He. destruct (IH _ _ _ Hl Hc He) as [Habs _].
    simpl in Habs. now destruct (extras st). }
  destruct pat as [| |t]; [exact Hextra | exact Hextra |].
  destruct (consume_optional p t) as [done [a|]| |] eqn:Hco;
    [| | exact Hextra | discriminate].
  - destruct rest as [|[v [| |t']] rest']; try discriminate.
    destruct (take_actions _ st) as [st1|c] eqn:Hta; [|discriminate].
    intros Hc He. simpl in Hlen.
    assert (Hl' : (length rest' <= n)%nat) by lia.
    destruct (IH _ _ _ Hl' Hc He) as [He1 Hall].
    assert (Hsame : extras st1 = extras st).
    { clear -Hta. revert st Hta.
      generalize (done ++ [(a, [v])]) as l.
      induction l as [|[a' vs'] l IHl]; intros st; simpl.
      - now intros [= <-].
      - destruct (take_action a' vs' st) as [st2|c] eqn:H2; [|discriminate].
        intros H. rewrite (IHl _ H). unfold take_action in H2.
        destruct (action a'); try discriminate; now injection H2 as <-. }
    split; [congruence|].
    constructor; [discriminate|]. constructor; [discriminate | exact Hall].
  - destruct (take_actions done st) as [st1|c] eqn:Hta; [|discriminate].
    intros Hc He.
    destruct (IH _ _ _ Hl Hc He) as [He1 Hall].
    assert (Hsame : extras st1 = extras st).
    { clear -Hta. revert st Hta.
      induction done as [|[a' vs'] l IHl]; intros st; simpl.
      - now intros [= <-].
      - destruct (take_action a' vs' st) as [st2|c] eqn:H2; [|discriminate].
        intros H. rewrite (IHl _ H). unfold take_action in H2.
        destruct (action a'); try discriminate; now injection H2 as <-. }
    split; [congruence|]. constructor; [discriminate | exact Hall].
Qed.

(** [supplied], read on the classified strings. *)
Fixpoint supplied_toks (toks : list (string * Pat)) : option (list string) :=
  match toks with
  | [] => None
  | (s, pat) :: rest =>
      match supplied_toks rest with
      | Some vs => Some vs
      | None =>
          match pat with
          | PO t =>
              match gives_of flags (consume_optional p t) with
              | NotThis => None
              | Invoked vs => Some vs
              | NextString =>
                  match rest with
                  | (v, _) :: _ => Some [v]
                  | [] => None
                  end
              end
          | _ => None
          end
      end
  end.

(** The invariant of the second pass: the destination holds what the
    last invocation of the option stored, and keeps its value when no
    string invokes the option. *)
Lemma consume_supplied n : forall toks st st',
  (length toks <= n)%nat -> Forall (tok_ok args) toks ->
  consume p toks st = inl st' -> extras st' = [] ->
  match supplied_toks toks with
  | Some vs => namespace st' !! k = Some (get_values vs) /\
               given_in st' = true
  | None => namespace st' !! k = namespace st !! k /\
            given_in st' = given_in st
  end.
Proof.
  induction n as [|n IH]; intros toks st st' Hlen Hall.
  { destruct toks; [|simpl in Hlen; lia]. simpl.
    intros [= <-] _. now split. }
  destruct toks as [|[s pat] rest]; [simpl; intros [= <-] _; now split|].
  simpl in Hlen. inversion Hall as [|x l [Hs Hpat] Hrest]; subst.
  assert (Hl : (length rest <= n)%nat) by lia.
  simpl in Hs, Hpat. intros Hc He.
  destruct (consume_no_extras _ _ _ _ (le_n _) Hc He) as [He0 _].
  simpl in Hc.
  assert (Hextra : ~ (consume p rest
            {| namespace := namespace st; seen := seen st;
               extras := extras st ++ [s] |} = inl st')).
  { intros Hc'.
    destruct (consume_no_extras _ _ _ _ (le_n _) Hc' He) as [Habs _].
    simpl in Habs. now destruct (extras st). }
  destruct pat as [| |t]; [now elim Hextra | now elim Hextra |].
  simpl.
  destruct (consume_optional p t) as [done [a|]| |] eqn:Hco;
    [| | now elim Hextra | discriminate].
  - destruct (consume_optional_ok s t done (Some a) Hpat Hco)
      as [Hdone Hpend].
    destruct (Hpend a eq_refl) as [Ha Htv].
    destruct rest as [|[v [| |t']] rest']; try discriminate.
    destruct (take_actions _ st) as [st1|c] eqn:Hta; [|discriminate].
    inversion Hrest as [|y l' _ Hrest']; subst. simpl in Hlen.
    assert (Hl' : (length rest' <= n)%nat) by lia.
    pose proof (IH _ _ _ Hl' Hrest' Hc He) as Hlater.
    assert (Hin : Forall in_parser (done ++ [(a, [v])])).
    { apply Forall_app. split.
      - eapply Forall_impl; [exact Hdone|].
        intros x. apply action_ok_in_parser.
      - constructor; [exact Ha | constructor]. }
    destruct (take_actions_effect _ _ _ Hin Hta) as [_ Hnow].
    rewrite last_invocation_app in Hnow.
    simpl. destruct (supplied_toks rest') as [r|]; [exact Hlater|].
    destruct Hlater as [Hns Hg]. unfold gives_of.
    destruct (bool_decide (option_strings a = flags)).
    + destruct Hnow as [Hns1 Hg1]. split; congruence.
    + destruct (last_invocation flags done) as [vs|];
        destruct Hnow as [Hns1 Hg1]; split; congruence.
  - destruct (consume_optional_ok s t done None Hpat Hco) as [Hdone _].
    destruct (take_actions done st) as [st1|c] eqn:Hta; [|discriminate].
    pose proof (IH _ _ _ Hl Hrest Hc He) as Hlater.
    assert (Hin : Forall in_parser done).
    { eapply Forall_impl; [exact Hdone|].
      intros x. apply action_ok_in_parser. }
    destruct (take_actions_effect _ _ _ Hin Hta) as [_ Hnow].
    destruct (supplied_toks rest) as [r|]; [exact Hlater|].
    destruct Hlater as [Hns Hg]. unfold gives_of.
    destruct (last_invocation flags done) as [vs|];
      destruct Hnow as [Hns1 Hg1]; split; congruence.
Qed.

(** Without [--] among the strings, the first pass classifies each
    string on its own. *)
Lemma classify_supplied l : forall toks,
  classify p false l = Some toks ->
  Forall (fun x => snd x <> PDash) toks ->
  supplied_toks toks = supplied p flags l.
Proof.
  induction l as [|s rest IH]; intros toks; simpl.
  { now intros [= <-] _. }
  destruct (String.eqb s "--").
  { destruct (classify p true rest); [|discriminate].
    intros [= <-] Hall. inversion Hall as [|x l1 Hx _]; subst.
    now elim Hx. }
  unfold token_gives.
  destruct (parse_optional p s) as [|t|] eqn:Hpo; [| |discriminate];
    (destruct (classify p false rest) as [l1|] eqn:Hc; [|discriminate]);
    intros [= <-] Hall; inversion Hall as [|x l2 _ Hl]; subst;
    simpl; rewrite (IH _ eq_refl Hl).
  - reflexivity.
  - destruct (supplied p flags rest); [reflexivity|].
    destruct (gives_of flags (consume_optional p t)); try reflexivity.
    destruct rest as [|v rest']; simpl in Hc.
    + injection Hc as <-. reflexivity.
    + destruct (String.eqb v "--").
      { destruct (classify p true rest'); [|discriminate].
        now injection Hc as <-. }
      destruct (parse_optional p v); try discriminate;
        (destruct (classify p false rest'); [|discriminate]);
        now injection Hc as <-.
Qed.

(** An option that takes a value is invoked with one argument string. *)
Lemma last_invocation_one tok done vs :
  Forall (action_ok tok) done ->
  last_invocation flags done = Some vs -> exists v, vs = [v].
Proof.
  induction done as [|[a vs'] rest IH]; simpl; [discriminate|].
  intros Hall. inversion Hall as [|x l [Ha Hv] Hl]; subst.
  simpl in Ha, Hv.
  destruct (last_invocation flags rest) as [r|].
  - intros [= <-]. now apply IH.
  - destruct (decide (option_strings a = flags)) as [Heq|Hne].
    + rewrite bool_decide_eq_true_2 by exact Heq. intros [= <-].
      destruct (flags_store a Ha Heq) as [_ Hact].
      unfold takes_value in Hv. rewrite Hact in Hv.
      destruct (Hv eq_refl) as (v & -> & _). eauto.
    + rewrite bool_decide_eq_false_2 by exact Hne. discriminate.
Qed.

Lemma token_gives_one s vs :
  token_gives p flags s = Invoked vs -> exists v, vs = [v].
Proof.
  unfold token_gives.
  destruct (parse_optional p s) as [|t|] eqn:Hpo; try discriminate.
  apply parse_optional_ok in Hpo.
  destruct (consume_optional p t) as [done pending| |] eqn:Hco;
    try discriminate.
  destruct (consume_optional_ok s t done pending Hpo Hco) as [Hdone _].
  unfold gives_of.
  destruct (last_invocation flags done) as [r|] eqn:Hl.
  - destruct pending as [a|];
      [destruct (bool_decide (option_strings a = flags)); [discriminate|]|];
      intros [= <-]; eapply last_invocation_one; eauto.
  - destruct pending as [a|];
      [destruct (bool_decide (option_strings a = flags))|]; discriminate.
Qed.

Lemma supplied_one l : forall vs,
  supplied p flags l = Some vs -> exists v, vs = [v].
Proof.
  induction l as [|s rest IH]; intros vs; simpl; [discriminate|].
  destruct (supplied p flags rest) as [r|].
  - intros [= <-]. now apply IH.
  - destruct (token_gives p flags s) as [|vs'|] eqn:Hg; try discriminate.
    + intros [= <-]. eapply token_gives_one; eauto.
    + destruct rest; [discriminate|]. intros [= <-]. eauto.
Qed.

Hypothesis default_written : with_defaults p !! k = Some d.

Lemma parse_known_args_supplied st :
  parse_known_args p args = inl st -> extras st = [] ->
  match supplied p flags args with
  | Some vs => namespace st !! k = Some (get_values vs) /\
               given_in st = true
  | None => namespace st !! k = Some d /\ given_in st = false
  end.
Proof.
  unfold parse_known_args.
  destruct (classify p false args) as [toks|] eqn:Hc; [|discriminate].
  destruct (consume p toks _) as [st1|c] eqn:Hco; [|discriminate].
  destruct (missing_required p st1); [discriminate|].
  intros [= <-] He.
  destruct (consume_no_extras _ _ _ _ (le_n _) Hco He) as [_ Hnd].
  rewrite <- (classify_supplied _ _ Hc Hnd).
  assert (Hok : Forall (tok_ok args) toks).
  { eapply classify_ok; [|exact Hc]. intros x Hx. exact Hx. }
  pose proof (consume_supplied _ _ _ _ (le_n _) Hok Hco He) as H.
  simpl in H. rewrite default_written in H. exact H.
Qed.

(** What [parse_args] leaves at the destination of a [store] option: the
    default when no string invokes the option; otherwise what
    [_get_values] makes of the one argument string of the last
    invocation. *)
Lemma parse_args_store ns :
  parse_args p args = Parsed ns ->
  match supplied p flags args with
  | Some vs => (exists v, vs = [v]) /\
               ns !! k = Some (get_values vs) /\
               was_given p flags args = true
  | None => ns !! k = Some d /\ was_given p flags args = false
  end.
Proof.
  unfold parse_args, was_given.
  destruct (parse_known_args p args) as [st|c] eqn:Hp; [|discriminate].
  destruct (extras st) eqn:He; [|discriminate]. intros [= <-].
  pose proof (parse_known_args_supplied st Hp He) as H.
  destruct (supplied p flags args) as [vs|] eqn:Hs.
  - split; [eapply supplied_one; eauto | exact H].
  - exact H.
Qed.

End StoreOption.

(** An attribute of the namespace, once written, stays written. *)
Section KeepsKey.

Variable p : ArgumentParser.
Variable k : string.

Lemma take_action_keeps a vs st st' :
  is_Some (namespace st !! k) ->
  take_action a vs st = inl st' -> is_Some (namespace st' !! k).
Proof.
  intros Hk. unfold take_action.
  destruct (action a); try discriminate;
    intros [= <-]; simpl;
    apply lookup_insert_is_Some; destruct (decide (dest a = k)); auto.
Qed.

Lemma take_actions_keeps tuples : forall st st',
  is_Some (namespace st !! k) ->
  take_actions tuples st = inl st' -> is_Some (namespace st' !! k).
Proof.
  induction tuples as [|[a vs] rest IH]; intros st st' Hk; simpl.
  - now intros [= <-].
  - destruct (take_action a vs st) as [st1|c] eqn:Hta; [|discriminate].
    apply IH. eapply take_action_keeps; eauto.
Qed.

Lemma consume_keeps n : forall toks st st',
  (length toks <= n)%nat -> is_Some (namespace st !! k) ->
  consume p toks st = inl st' -> is_Some (namespace st' !! k).
Proof.
  induction n as [|n IH]; intros toks st st' Hlen Hk.
  { destruct toks; [|simpl in Hlen; lia]. simpl. now intros [= <-]. }
  destruct toks as [|[s pat] rest]; [simpl; now intros [= <-]|].
  simpl in Hlen. simpl.
  destruct pat as [| |t]; try (apply IH; [lia | exact Hk]).
  destruct (consume_optional p t) as [done [a|]| |];
    [| | apply IH; [lia | exact Hk] | discriminate].
  - destruct rest as [|[v [| |t']] rest']; try discriminate.
    destruct (take_actions _ st) as [st1|c] eqn:Hta; [|discriminate].
    apply IH; [simpl in Hlen; lia|]. eapply take_actions_keeps; eauto.
  - destruct (take_actions done st) as [st1|c] eqn:Hta; [|discriminate].
    apply IH; [lia|]. eapply take_actions_keeps; eauto.
Qed.

Lemma parse_args_keeps args ns :
  is_Some (with_defaults p !! k) ->
  parse_args p args = Parsed ns -> is_Some (ns !! k).
Proof.
  intros Hk. unfold parse_args, parse_known_args.
  destruct (classify p false args) as [toks|]; [|discriminate].
  destruct (consume p toks _) as [st1|c] eqn:Hco; [|discriminate].
  destruct (missing_required p st1); [discriminate|].
  destruct (extras st1); [|discriminate]. intros [= <-].
  eapply (consume_keeps (length toks) toks); [apply le_n | | exact Hco].
  exact Hk.
Qed.

End KeepsKey.

(** ** One more option string at the end of a command line *)

Section OneMore.

Variable p : ArgumentParser.

Lemma classify_app more l : forall toks,
  classify p false l = Some toks ->
  Forall (fun x => snd x <> PDash) toks ->
  classify p false (l ++ more)
  = match classify p false more with
    | Some r => Some (toks ++ r)
    | None => None
    end.
Proof.
  induction l as [|s rest IH]; intros toks.
  { simpl. intros [= <-] _. now destruct (classify p false more). }
  cbn [classify app].
  destruct (String.eqb s "--").
  { destruct (classify p true rest); [|discriminate].
    intros [= <-] Hall. inversion Hall as [|x l1 Hx _]; subst.
    now elim Hx. }
  destruct (parse_optional p s) as [|t|]; [| |discriminate];
    (destruct (classify p false rest) as [l1|] eqn:Hc; [|discriminate]);
    intros [= <-] Hall; inversion Hall as [|x l2 _ Hl]; subst;
    rewrite (IH _ eq_refl Hl);
    now destruct (classify p false more).
Qed.

Lemma consume_app more n : forall toks st st1,
  (length toks <= n)%nat -> consume p toks st = inl st1 ->
  consume p (toks ++ more) st = consume p more st1.
Proof.
  induction n as [|n IH]; intros toks st st1 Hlen.
  { destruct toks; [|simpl in Hlen; lia]. simpl. now intros [= <-]. }
  destruct toks as [|[s pat] rest]; [simpl; now intros [= <-]|].
  simpl in Hlen. assert (Hl : (length rest <= n)%nat) by lia.
  cbn [consume app].
  destruct pat as [| |t]; try (apply IH; exact Hl).
  destruct (consume_optional p t) as [done [a|]| |];
    [| | apply IH; exact Hl | discriminate].
  - destruct rest as [|[v [| |t']] rest']; try discriminate.
    cbn [app].
    destruct (take_actions _ st) as [st2|c]; [|discriminate].
    apply IH. simpl in Hl. lia.
  - destruct (take_actions done st) as [st2|c]; [|discriminate].
    apply IH. exact Hl.
Qed.

Lemma missing_required_more st st' :
  (forall a, was_seen st a = true -> was_seen st' a = true) ->
  missing_required p st = false -> missing_required p st' = false.
Proof.
  intros Hmore. unfold missing_required.
  induction p as [|a q IH]; simpl; [reflexivity|].
  intros H. apply orb_false_iff in H as [Ha Hq].
  rewrite (IH Hq), orb_false_r.
  destruct (required a); [|reflexivity]. simpl in *.
  destruct (was_seen st a) eqn:Hs; [|discriminate].
  now rewrite (Hmore a Hs).
Qed.

(** A command line that parses still parses with one more string of the
    form [--opt=value] at its end, and differs in the attribute of that
    option only: no value is refused. *)
Lemma parse_args_one_more a o e tok argv ns :
  parse_args p argv = Parsed ns ->
  String.eqb tok "--" = false ->
  parse_optional p tok = Optional (Some a, o, Some e) ->
  action a = Store ->
  parse_args p (argv ++ [tok]) = Parsed (<[dest a := get_values [e]]> ns).
Proof.
  intros Hp Htok Hpo Hact. revert Hp.
  unfold parse_args, parse_known_args.
  destruct (classify p false argv) as [toks|] eqn:Hc; [|discriminate].
  destruct (consume p toks _) as [st1|c] eqn:Hco; [|discriminate].
  destruct (missing_required p st1) eqn:Hm; [discriminate|].
  destruct (extras st1) eqn:He; [|discriminate]. intros [= <-].
  destruct (consume_no_extras p _ _ _ _ (le_n _) Hco He) as [_ Hnd].
  rewrite (classify_app [tok] argv toks Hc Hnd).
  cbn [classify]. rewrite Htok, Hpo.
  rewrite (consume_app _ _ _ _ _ (le_n _) Hco).
  cbn [consume consume_optional]. unfold consume_explicit.
  assert (Htv : takes_value a = true) by (unfold takes_value; now rewrite Hact).
  destruct e; rewrite Htv; cbn [app take_actions]; unfold take_action;
    rewrite Hact; cbn [extras namespace seen];
    (rewrite (missing_required_more st1);
     [rewrite He; reflexivity
     | intros x Hx; unfold was_seen in *; cbn [seen existsb];
       rewrite Hx; apply orb_true_r
     | exact Hm]).
Qed.

End OneMore.

(** ** What [main] has done when it starts serving *)

Definition temperature_flags : list string := ["-t"; "--temperature"].
Definition openai_api_key_flags : list string := ["--openai-api-key"].

Ltac parser_cases H :=
  unfold build_parser, add_argument, new_parser in H; simpl in H;
  repeat (destruct H as [H|H]; [subst|]); [..|destruct H].

Definition temperature_argument : Argument :=
  {| option_strings := temperature_flags; dest := "temperature";
     required := false; default := PyFloat 0; action := Store |}.

Lemma get_values_one v :
  get_values [v] = if String.eqb v "--" then PyList [] else PyStr v.
Proof. unfold get_values. simpl. now destruct (String.eqb v "--"). Qed.

(** A last string that invokes the option with a value it carries is
    what the command line supplies. *)
Lemma supplied_last_string p flags argv tok vs :
  token_gives p flags tok = Invoked vs ->
  supplied p flags (argv ++ [tok]) = Some vs.
Proof.
  intros Hg. induction argv as [|s rest IH]; simpl.
  - now rewrite Hg.
  - now rewrite IH.
Qed.

(** Whether [logging.basicConfig] takes the format. *)
Definition format_accepted (v : PyVal) : bool :=
  negb (truthy v)
  || match v with
     | PyStr fs => Logging.search fs
     | _ => false
     end.

Lemma basic_config_accepted level fmt w :
  format_accepted fmt = true ->
  basic_config level fmt w = emit (BasicConfig level fmt) w.
Proof.
  unfold format_accepted, basic_config.
  destruct (truthy fmt); [|reflexivity]. simpl.
  destruct fmt; try discriminate. now intros ->.
Qed.

Lemma basic_config_refused level fmt w :
  format_accepted fmt = false ->
  basic_config level fmt w
  = Raise (match fmt with PyStr _ => ValueError | _ => TypeError end) w.
Proof.
  unfold format_accepted, basic_config.
  destruct (truthy fmt); [|discriminate]. simpl.
  destruct fmt; try reflexivity. now intros ->.
Qed.

Section MainFacts.

Variable __version__ : string.
Variable OPENAI_DEFAULT_MODEL : string.
Variable WHISPER_LANGUAGES : list string.
Variable supported_uri : string -> bool.

Let parser := build_parser __version__ OPENAI_DEFAULT_MODEL.
Let program := main __version__ OPENAI_DEFAULT_MODEL WHISPER_LANGUAGES
                 supported_uri.
Let info := make_info __version__ WHISPER_LANGUAGES.

Lemma parsed_temperature key argv ns :
  parse_args (parser key) argv = Parsed ns ->
  match supplied (parser key) temperature_flags argv with
  | Some vs => (exists v, vs = [v]) /\
               ns !! "temperature" = Some (get_values vs) /\
               was_given (parser key) temperature_flags argv = true
  | None => ns !! "temperature" = Some (PyFloat 0) /\
            was_given (parser key) temperature_flags argv = false
  end.
Proof.
  apply parse_args_store.
  - intros a Ha Hf. parser_cases Ha; try discriminate Hf. now split.
  - intros a Ha Hf Hw. parser_cases Ha;
      solve [ discriminate Hw | discriminate | now elim Hf ].
  - reflexivity.
Qed.

Lemma parsed_openai_api_key key argv ns :
  parse_args (parser key) argv = Parsed ns ->
  match supplied (parser key) openai_api_key_flags argv with
  | Some vs => (exists v, vs = [v]) /\
               ns !! "openai_api_key" = Some (get_values vs) /\
               was_given (parser key) openai_api_key_flags argv = true
  | None => ns !! "openai_api_key" = Some key /\
            was_given (parser key) openai_api_key_flags argv = false
  end.
Proof.
  apply parse_args_store.
  - intros a Ha Hf. parser_cases Ha; try discriminate Hf. now split.
  - intros a Ha Hf Hw. parser_cases Ha;
      solve [ discriminate Hw | discriminate | now elim Hf ].
  - reflexivity.
Qed.

(** The forms in which a command-line string invokes [-t/--temperature]:
    with the value after [=], whatever the value; alone, also
    abbreviated, with the value in the next string; after other short
    flags. *)
Lemma temperature_option_forms key v :
  token_gives (parser key) temperature_flags ("--temperature=" +:+ v)
  = Invoked [v] /\
  token_gives (parser key) temperature_flags ("--temp=" +:+ v)
  = Invoked [v] /\
  token_gives (parser key) temperature_flags ("-t=" +:+ v) = Invoked [v] /\
  token_gives (parser key) temperature_flags "--temperature" = NextString /\
  token_gives (parser key) temperature_flags "--te" = NextString /\
  token_gives (parser key) temperature_flags "-t" = NextString /\
  token_gives (parser key) temperature_flags "-dt" = NextString /\
  token_gives (parser key) temperature_flags "-t1.5" = Invoked ["1.5"] /\
  token_gives (parser key) temperature_flags "-dt1.5" = Invoked ["1.5"] /\
  token_gives (parser key) temperature_flags "--prompt=-t" = NotThis /\
  token_gives (parser key) temperature_flags "1.5" = NotThis /\
  token_gives (parser key) temperature_flags "-1.5" = NotThis.
Proof.
  destruct v; vm_compute; repeat split.
Qed.

(** The store and the trace at the moment [server.run] is awaited, and
    what the namespace held to get there. *)
Lemma main_serving_full argv env r w :
  program argv (init_world env) = Ret r w ->
  exists ns u dbg fmt,
    parse_args (parser (os_environ_get env "OPENAI_API_KEY")) argv
      = Parsed ns /\
    ns !! "uri" = Some (PyStr u) /\ supported_uri u = true /\
    ns !! "debug" = Some dbg /\
    ns !! "log_format" = Some fmt /\ format_accepted fmt = true /\
    w = {| environ := env;
           heap := [ONamespace ns; OInfo info; OServer u; OLock false];
           trace := [Alloc 0;
                     BasicConfig (if truthy dbg then DEBUG else INFO) fmt;
                     LogArgs DEBUG 0;
                     Alloc 1; Alloc 2; LogMsg INFO "Ready"; Alloc 3] |} /\
    r = {| server := 2;
           handler_factory := partial WhisperAPIEventHandler 1 0 3 |}.
Proof.
  unfold program, main, bind, getenv. simpl.
  fold (parser (os_environ_get env "OPENAI_API_KEY")).
  destruct (parse_args _ argv) as [ns|c] eqn:Hp; [|discriminate].
  unfold new, getattr; simpl.
  destruct (ns !! "debug") as [dbg|] eqn:Hd; [|discriminate]. simpl.
  destruct (ns !! "log_format") as [fmt|] eqn:Hf; [|discriminate]. simpl.
  destruct (format_accepted fmt) eqn:Hacc;
    [|rewrite (basic_config_refused _ _ _ Hacc); discriminate].
  rewrite (basic_config_accepted _ _ _ Hacc).
  unfold emit, from_uri, new, ret, raise; simpl.
  destruct (ns !! "uri") as [uri|] eqn:Hu; [|discriminate]. simpl.
  destruct uri as [|b|u|q|l]; try (destruct (truthy _); discriminate).
  destruct (supported_uri u) eqn:Hs; [|discriminate]. simpl.
  intros [= <- <-].
  exists ns, u, dbg, fmt. repeat split; assumption.
Qed.

Lemma main_serving argv env r w :
  program argv (init_world env) = Ret r w ->
  exists ns u level format,
    parse_args (parser (os_environ_get env "OPENAI_API_KEY")) argv
      = Parsed ns /\
    ns !! "uri" = Some (PyStr u) /\ supported_uri u = true /\
    w = {| environ := env;
           heap := [ONamespace ns; OInfo info; OServer u; OLock false];
           trace := [Alloc 0; BasicConfig level format; LogArgs DEBUG 0;
                     Alloc 1; Alloc 2; LogMsg INFO "Ready"; Alloc 3] |} /\
    r = {| server := 2;
           handler_factory := partial WhisperAPIEventHandler 1 0 3 |}.
Proof.
  intros H.
  destruct (main_serving_full _ _ _ _ H)
    as (ns & u & dbg & fmt & Hp & Hu & Hs & _ & _ & _ & Hw & Hr).
  exists ns, u, (if truthy dbg then DEBUG else INFO), fmt.
  now repeat split.
Qed.

(** Conversely: a successful parse with a log format that
    [logging.basicConfig] takes and a supported URI always gets as far as
    [server.run]. *)
Lemma main_starts argv env ns u fmt :
  parse_args (parser (os_environ_get env "OPENAI_API_KEY")) argv
    = Parsed ns ->
  ns !! "uri" = Some (PyStr u) -> supported_uri u = true ->
  ns !! "log_format" = Some fmt -> format_accepted fmt = true ->
  exists level,
    program argv (init_world env)
    = Ret {| server := 2;
             handler_factory := partial WhisperAPIEventHandler 1 0 3 |}
          {| environ := env;
             heap := [ONamespace ns; OInfo info; OServer u; OLock false];
             trace := [Alloc 0; BasicConfig level fmt; LogArgs DEBUG 0;
                       Alloc 1; Alloc 2; LogMsg INFO "Ready"; Alloc 3] |}.
Proof.
  intros Hp Hu Hs Hfmt Hacc.
  set (key := os_environ_get env "OPENAI_API_KEY") in *.
  assert (Hd0 : with_defaults (parser key) !! "debug" = Some (PyBool false))
    by reflexivity.
  destruct (parse_args_keeps _ "debug" argv ns (mk_is_Some _ _ Hd0) Hp)
    as [dbg Hd].
  exists (if truthy dbg then DEBUG else INFO).
  unfold program, main, bind, getenv. simpl.
  fold (parser (os_environ_get env "OPENAI_API_KEY")). fold key. rewrite Hp.
  unfold new, getattr; simpl.
  rewrite Hd. simpl. rewrite Hfmt. simpl.
  rewrite (basic_config_accepted _ _ _ Hacc).
  unfold emit, from_uri, new, ret, raise; simpl.
  rewrite Hu. simpl. rewrite Hs. reflexivity.
Qed.

End MainFacts.

(** ** Temperatures *)

Lemma clamp_in_unit_interval t : in_unit_interval (clamp t) = true.
Proof.
  unfold clamp, in_unit_interval.
  destruct (Qle_bool t 0) eqn:H0; [reflexivity|].
  destruct (Qle_bool 1 t) eqn:H1; [reflexivity|].
  apply andb_true_intro. split; apply Qle_bool_iff.
  - apply Qlt_le_weak, Qnot_le_lt. intros H.
    apply Qle_bool_iff in H. congruence.
  - apply Qlt_le_weak, Qnot_le_lt. intros H.
    apply Qle_bool_iff in H. congruence.
Qed.

Lemma clamp_idempotent t : clamp (clamp t) = clamp t.
Proof.
  unfold clamp.
  destruct (Qle_bool t 0) eqn:H0; [reflexivity|].
  destruct (Qle_bool 1 t) eqn:H1; [reflexivity|].
  now rewrite H0, H1.
Qed.

Lemma apply_policy_in_unit_interval policy t t' :
  apply_policy policy t = Some t' -> in_unit_interval t' = true.
Proof.
  destruct policy; simpl.
  - intros [= <-]. apply clamp_in_unit_interval.
  - destruct (in_unit_interval t) eqn:H; [|discriminate]. now intros [= <-].
Qed.

(** ** Invariants of the serving process *)

Lemma inflight_count_insert ss : forall i s s',
  ss !! i = Some s ->
  (inflight_count (<[i := s']> ss) + (if is_inflight s then 1 else 0)
   = inflight_count ss + (if is_inflight s' then 1 else 0))%nat.
Proof.
  induction ss as [|x ss IH]; intros [|i] s s'; simpl; try discriminate.
  - intros [= ->]. lia.
  - intros H. specialize (IH i s s' H). lia.
Qed.

Lemma inflight_count_app ss ss' :
  inflight_count (ss ++ ss') = (inflight_count ss + inflight_count ss')%nat.
Proof. induction ss as [|x ss IH]; simpl; [reflexivity | lia]. Qed.

Lemma inflight_count_pos ss i s :
  ss !! i = Some s -> is_inflight s = true -> (1 <= inflight_count ss)%nat.
Proof.
  revert i. induction ss as [|x ss IH]; intros [|i]; simpl; try discriminate.
  - intros [= ->] ->. lia.
  - intros H Hs. specialize (IH i H Hs). lia.
Qed.

Section ServingFacts.

Variable policy : TemperaturePolicy.
Variable float_of_str : string -> option Q.

(** The store that [main] leaves: namespace, descriptor, server, lock. *)
Variable ns : gmap string PyVal.
Variable info : Info.t.
Variable uri : string.

Definition store (locked : bool) : list Obj :=
  [ONamespace ns; OInfo info; OServer uri; OLock locked].

Definition configured (k : string) : PyVal :=
  match ns !! k with Some v => v | None => PyNone end.

Definition request_ok (r : Request) : Prop :=
  credentials r = configured "openai_api_key" /\
  model r = configured "openai_model" /\
  in_unit_interval (req_temperature r) = true.

Definition session_ok (s : Session) : Prop :=
  (exists c, ctor s = WhisperAPIEventHandler 1 0 3 c) /\
  match phase s with
  | Idle => call s = NoCall /\ buffer s = [] /\ connected s = true
  | Receiving p => call s = NoCall /\ in_unit_interval (temperature p) = true
  | Transcribing | Closed => True
  end /\
  match call s with
  | NoCall => True
  | AwaitingGate r | InFlight r => request_ok r
  end.

Definition system_ok (σ : System) : Prop :=
  (forall c, factory σ c = WhisperAPIEventHandler 1 0 3 c) /\
  Forall session_ok (sessions σ) /\
  Forall (fun x => request_ok (snd x)) (calls σ) /\
  exists locked,
    heap (world σ) = store locked /\
    inflight_count (sessions σ) = if locked then 1%nat else 0%nat.

Lemma config_get_store locked s key :
  session_ok s -> config_get (store locked) s key = configured key.
Proof.
  intros [[c Hc] _]. unfold config_get, config_of. rewrite Hc. reflexivity.
Qed.

Lemma make_request_ok locked p s :
  session_ok s -> in_unit_interval (temperature p) = true ->
  request_ok (make_request (store locked) p s).
Proof.
  intros Hs Ht. unfold request_ok, make_request. simpl.
  rewrite !(config_get_store locked s) by exact Hs. now repeat split.
Qed.

Lemma on_event_ok locked e s :
  session_ok s ->
  session_ok (on_event policy float_of_str (store locked) e s) /\
  is_inflight (on_event policy float_of_str (store locked) e s)
    = is_inflight s.
Proof.
  intros Hs. pose proof Hs as (Hc & Hph & Hcall).
  unfold on_event. destruct (connected s); simpl; [|now split].
  destruct e as [sp|bytes| |]; destruct (phase s) as [|p| |] eqn:Hphase;
    try (split; [exact Hs | reflexivity]).
  - unfold on_session_start.
    destruct (effective_temperature _ _ _ _) as [t|] eqn:Ht;
      [|split; [exact Hs | reflexivity]].
    split; [|reflexivity].
    unfold session_ok; simpl. destruct Hph as [Hn Hb].
    repeat split; try assumption.
    unfold effective_temperature in Ht.
    destruct (start_temperature sp).
    + eapply apply_policy_in_unit_interval; eauto.
    + destruct (to_float _ _); [|discriminate].
      eapply apply_policy_in_unit_interval; eauto.
  - split; [|reflexivity]. unfold session_ok, on_audio_chunk; simpl.
    rewrite Hphase. now repeat split.
  - destruct Hph as [Hn Ht]. split.
    + unfold session_ok, on_session_stop; simpl.
      repeat split; try assumption.
      all: apply (make_request_ok locked p s Hs Ht).
    + unfold is_inflight. simpl. now rewrite Hn.
  - unfold on_disconnect. rewrite Hphase. split; [|reflexivity].
    unfold session_ok. simpl. now repeat split.
  - destruct Hph as [Hn Ht]. unfold on_disconnect. rewrite Hphase.
    destruct (buffer s) eqn:Hb.
    + split; [|reflexivity]. unfold session_ok. simpl. now repeat split.
    + split.
      * unfold session_ok; simpl.
        repeat split; try assumption.
        all: apply (make_request_ok locked p s Hs Ht).
      * unfold is_inflight. simpl. now rewrite Hn.
  - unfold on_disconnect. rewrite Hphase. split; [|reflexivity].
    unfold session_ok. simpl. now repeat split.
  - unfold on_disconnect. rewrite Hphase. split; [|reflexivity].
    unfold session_ok. simpl. now repeat split.
Qed.

Lemma on_result_ok r s :
  session_ok s -> session_ok (on_result r s) /\ is_inflight (on_result r s) = false.
Proof.
  intros (Hc & _ & _). unfold on_result, session_ok, is_inflight.
  destruct (phase s), (connected s); simpl; now repeat split.
Qed.

Lemma system_ok_intro w f ss cs locked :
  (forall c, f c = WhisperAPIEventHandler 1 0 3 c) ->
  Forall session_ok ss ->
  Forall (fun x => request_ok (snd x)) cs ->
  heap w = store locked ->
  inflight_count ss = (if locked then 1%nat else 0%nat) ->
  system_ok {| world := w; factory := f; sessions := ss; calls := cs |}.
Proof. intros. repeat split; try assumption. exists locked. now split. Qed.

Lemma step_ok lbl σ :
  system_ok σ -> system_ok (step policy float_of_str lbl σ).
Proof.
  intros Hok. pose proof Hok as (Hf & Hss & Hcs & locked & Hheap & Hcount).
  destruct lbl as [c|key v|key|i e|i|i r]; unfold step.
  - apply (system_ok_intro _ _ _ _ locked); try assumption.
    + apply Forall_app. split; [exact Hss|].
      constructor; [|constructor]. unfold session_ok; simpl.
      rewrite Hf. repeat split; eauto.
    + rewrite inflight_count_app. simpl. lia.
  - apply (system_ok_intro _ _ _ _ locked); assumption.
  - apply (system_ok_intro _ _ _ _ locked); assumption.
  - destruct (sessions σ !! i) as [s|] eqn:Hi; [|exact Hok].
    assert (Hs : session_ok s) by (eapply Forall_lookup_1; eauto).
    rewrite Hheap. destruct (on_event_ok locked e s Hs) as [Hs' Hfl].
    apply (system_ok_intro _ _ _ _ locked); try assumption.
    + now apply Forall_insert.
    + pose proof (inflight_count_insert (sessions σ) i s
        (on_event policy float_of_str (store locked) e s) Hi) as H.
      rewrite Hfl in H. lia.
  - destruct (sessions σ !! i) as [s|] eqn:Hi; [|exact Hok].
    assert (Hs : session_ok s) by (eapply Forall_lookup_1; eauto).
    destruct (call s) as [|rq|rq] eqn:Hcall; try exact Hok.
    pose proof Hs as ([c Hc] & Hph & Hrq). rewrite Hcall in Hrq.
    rewrite Hc, Hheap. cbn [model_lock].
    destruct locked; [exact Hok|].
    change (lock_free (store false) 3) with true. cbv iota.
    apply (system_ok_intro _ _ _ _ true); try assumption.
    + apply Forall_insert; [exact Hss|].
      unfold session_ok, with_call; simpl. rewrite Hc.
      split; [eauto|]. split; [|exact Hrq].
      destruct (phase s); try exact I; destruct Hph; congruence.
    + apply Forall_app. split; [exact Hcs|]. now constructor.
    + reflexivity.
    + pose proof (inflight_count_insert (sessions σ) i s
        (with_call (InFlight rq) s) Hi) as H.
      unfold is_inflight in H at 1 2. rewrite Hcall in H. simpl in H. lia.
  - destruct (sessions σ !! i) as [s|] eqn:Hi; [|exact Hok].
    assert (Hs : session_ok s) by (eapply Forall_lookup_1; eauto).
    destruct (call s) as [|rq|rq] eqn:Hcall; try exact Hok.
    pose proof Hs as ([c Hc] & Hph & Hrq).
    destruct (on_result_ok r s Hs) as [Hs' Hfl].
    assert (Hin : is_inflight s = true)
      by (unfold is_inflight; now rewrite Hcall).
    pose proof (inflight_count_pos _ _ _ Hi Hin) as Hpos.
    rewrite Hc, Hheap. cbn [model_lock].
    apply (system_ok_intro _ _ _ _ false); try assumption.
    + now apply Forall_insert.
    + reflexivity.
    + pose proof (inflight_count_insert (sessions σ) i s
        (on_result r s) Hi) as H.
      rewrite Hfl, Hin in H. destruct locked; lia.
Qed.

Lemma run_ok lbls : forall σ,
  system_ok σ -> system_ok (run policy float_of_str lbls σ).
Proof.
  induction lbls as [|lbl lbls IH]; intros σ H; [exact H|].
  simpl. apply IH, step_ok, H.
Qed.

End ServingFacts.

(** ** One session at work *)

Lemma inflight_count_holder ss :
  (1 <= inflight_count ss)%nat ->
  exists i s, ss !! i = Some s /\ is_inflight s = true.
Proof.
  induction ss as [|x ss IH]; simpl; [lia|].
  destruct (is_inflight x) eqn:Hx.
  - intros _. exists 0%nat, x. now split.
  - intros H. destruct IH as (i & s & Hi & Hs); [lia|].
    exists (S i), s. now split.
Qed.

Section SessionFacts.

Variable policy : TemperaturePolicy.
Variable float_of_str : string -> option Q.

Let serve := run policy float_of_str.
Let step := step policy float_of_str.

Lemma run_app l1 l2 σ : serve (l1 ++ l2) σ = serve l2 (serve l1 σ).
Proof. unfold serve, run. apply fold_left_app. Qed.

Lemma run_cons lbl l σ : serve (lbl :: l) σ = serve l (step lbl σ).
Proof. reflexivity. Qed.

Lemma on_event_sent h e s :
  sent (on_event policy float_of_str h e s) = sent s.
Proof.
  unfold on_event. destruct (connected s); [|reflexivity]. simpl.
  destruct e, (phase s) eqn:Hp; try reflexivity;
    unfold on_session_start, on_disconnect; rewrite ?Hp;
    try destruct (effective_temperature _ _ _ _);
    try destruct (buffer s); reflexivity.
Qed.

Lemma step_deliver σ i s e :
  sessions σ !! i = Some s ->
  step (Deliver i e) σ
  = {| world := world σ; factory := factory σ;
       sessions := <[i := on_event policy float_of_str
                             (heap (world σ)) e s]> (sessions σ);
       calls := calls σ |}.
Proof. intros H. unfold step. simpl. now rewrite H. Qed.

(** Audio chunks delivered to a receiving session pile up in order. *)
Lemma deliver_chunks i chunks : forall σ s p,
  sessions σ !! i = Some s -> phase s = Receiving p ->
  connected s = true ->
  let σ' := serve (map (fun b => Deliver i (AudioChunk b)) chunks) σ in
  world σ' = world σ /\ calls σ' = calls σ /\
  sessions σ' !! i
  = Some {| ctor := ctor s; phase := Receiving p; call := call s;
            connected := true; buffer := buffer s ++ concat chunks;
            sent := sent s |}.
Proof.
  induction chunks as [|b chunks IH]; intros σ s p Hi Hp Hc.
  - split; [reflexivity|]. split; [reflexivity|]. simpl.
    rewrite Hi. destruct s; simpl in *. subst. now rewrite app_nil_r.
  - cbv zeta. cbn [map]. rewrite run_cons, (step_deliver σ i s _ Hi).
    unfold on_event. rewrite Hc, Hp. cbn [negb].
    set (s1 := on_audio_chunk b s).
    set (σ1 := {| world := world σ; factory := factory σ;
                  sessions := <[i := s1]> (sessions σ);
                  calls := calls σ |}).
    assert (Hi1 : sessions σ1 !! i = Some s1).
    { simpl. apply list_lookup_insert_eq. eapply lookup_lt_Some; eauto. }
    destruct (IH σ1 s1 p Hi1 Hp Hc) as (Hw & Hcs & Hs).
    split; [exact Hw|]. split; [exact Hcs|].
    rewrite Hs. simpl. now rewrite <- (assoc_L (++)).
Qed.

End SessionFacts.

(** ** One utterance among concurrent sessions *)

(** The events a run delivers to session [i], in order. *)
Fixpoint events_of (i : nat) (lbls : list Label) : list Event :=
  match lbls with
  | [] => []
  | Deliver j e :: rest =>
      if Nat.eqb j i then e :: events_of i rest else events_of i rest
  | _ :: rest => events_of i rest
  end.

(** The requests issued to the backend for session [i], in order. *)
Fixpoint calls_of (i : nat) (cs : list (nat * Request)) : list Request :=
  match cs with
  | [] => []
  | (j, rq) :: rest =>
      if Nat.eqb j i then rq :: calls_of i rest else calls_of i rest
  end.

Definition is_start (e : Event) : bool :=
  match e with SessionStart _ => true | _ => false end.

Lemma calls_of_app i cs cs' :
  calls_of i (cs ++ cs') = calls_of i cs ++ calls_of i cs'.
Proof.
  induction cs as [|[j rq] cs IH]; simpl; [reflexivity|].
  destruct (Nat.eqb j i); simpl; now rewrite IH.
Qed.

(** An event other than session-start, in a session that is not
    receiving: the call stays as it is, and the phase stays or becomes
    [Closed]. *)
Lemma on_event_settled policy float_of_str h e s :
  is_start e = false ->
  (forall p, phase s <> Receiving p) ->
  call (on_event policy float_of_str h e s) = call s /\
  (phase (on_event policy float_of_str h e s) = phase s \/
   phase (on_event policy float_of_str h e s) = Closed).
Proof.
  intros He Hp. unfold on_event.
  destruct (connected s); cbn [negb]; [|split; [reflexivity | now left]].
  destruct e; try discriminate He; unfold on_disconnect;
    destruct (phase s) eqn:Hphase;
    try (split; [reflexivity | now left]);
    try (split; [reflexivity | now right]); now elim (Hp p).
Qed.

Section Utterance.

Variable policy : TemperaturePolicy.
Variable float_of_str : string -> option Q.
Variable ns : gmap string PyVal.
Variable info : Info.t.
Variable uri : string.

(** The session under study. *)
Variable i : nat.

Let advance := step policy float_of_str.
Let serve := run policy float_of_str.

Definition touches (lbl : Label) : bool :=
  match lbl with
  | Deliver j _ | Grant j | Resolve j _ => Nat.eqb j i
  | _ => false
  end.

(** A step of another session, of the dispatcher or of the environment
    leaves the session and its requests as they are. *)
Lemma step_frame lbl σ s :
  touches lbl = false -> sessions σ !! i = Some s ->
  sessions (advance lbl σ) !! i = Some s /\
  calls_of i (calls (advance lbl σ)) = calls_of i (calls σ) /\
  events_of i [lbl] = [].
Proof.
  intros Ht Hi. unfold advance, step.
  destruct lbl as [c|key v|key|j e|j|j res]; simpl in Ht; simpl.
  - split; [|now split]. apply lookup_app_l_Some. exact Hi.
  - now repeat split.
  - now repeat split.
  - rewrite Ht. apply Nat.eqb_neq in Ht.
    destruct (sessions σ !! j); simpl; [|now repeat split].
    rewrite list_lookup_insert_ne by exact Ht. now repeat split.
  - pose proof Ht as Hne. apply Nat.eqb_neq in Hne.
    destruct (sessions σ !! j) as [sj|]; [|now repeat split].
    destruct (call sj); try (now repeat split).
    destruct (lock_free _ _); simpl; [|now repeat split].
    rewrite list_lookup_insert_ne by exact Hne.
    rewrite calls_of_app. simpl. rewrite Ht, app_nil_r. now repeat split.
  - apply Nat.eqb_neq in Ht.
    destruct (sessions σ !! j) as [sj|]; [|now repeat split].
    destruct (call sj); simpl; try (now repeat split).
    rewrite list_lookup_insert_ne by exact Ht. now repeat split.
Qed.

(** The utterance: a session-start with parameters [sp], accepted with
    the temperature [t], then the audio chunks [chunks]. *)
Variable sp : StartParams.
Variable t : Q.
Variable chunks : list (list byte).

Hypothesis accepted :
  effective_temperature policy float_of_str (start_temperature sp)
    (configured ns "temperature") = Some t.

Definition carries_utterance (rq : Request) : Prop :=
  audio rq = concat chunks /\ req_temperature rq = t.

Definition no_start (ev : list Event) : Prop :=
  Forall (fun e => is_start e = false) ev.

(** Where the session stands in its utterance, given the events that
    are still to come and the requests issued for it since the
    utterance began: idle before the start, receiving, waiting for the
    Gate, or with its one request issued. *)
Definition track (ev : list Event) (s : Session) (issued : list Request)
    : Prop :=
  (exists more,
     ev = SessionStart sp :: map AudioChunk chunks ++ SessionStop :: more /\
     no_start more /\ phase s = Idle /\ issued = [])
  \/ (exists p got rest more,
        ev = map AudioChunk rest ++ SessionStop :: more /\
        no_start more /\ chunks = got ++ rest /\
        phase s = Receiving p /\ temperature p = t /\
        buffer s = concat got /\ connected s = true /\ issued = [])
  \/ (exists rq,
        no_start ev /\ call s = AwaitingGate rq /\ carries_utterance rq /\
        (phase s = Transcribing \/ phase s = Closed) /\ issued = [])
  \/ (exists rq,
        no_start ev /\ carries_utterance rq /\ issued = [rq] /\
        ((exists r', call s = InFlight r' /\
                     (phase s = Transcribing \/ phase s = Closed))
         \/ (call s = NoCall /\ (phase s = Idle \/ phase s = Closed)))).

Lemma track_step lbl σ s ev ev' issued base :
  system_ok ns info uri σ -> sessions σ !! i = Some s ->
  track ev s issued -> calls_of i (calls σ) = base ++ issued ->
  ev = events_of i [lbl] ++ ev' ->
  exists s' issued',
    sessions (advance lbl σ) !! i = Some s' /\
    track ev' s' issued' /\
    calls_of i (calls (advance lbl σ)) = base ++ issued'.
Proof.
  intros Hok Hi Htr Hcalls Hev.
  pose proof Hok as (Hf & Hss & Hcs & locked & Hheap & Hcount).
  assert (Hs : session_ok ns s) by (eapply Forall_lookup_1; eauto).
  assert (Hlt : (i < length (sessions σ))%nat)
    by (eapply lookup_lt_Some; eauto).
  destruct (touches lbl) eqn:Ht.
  2: { destruct (step_frame lbl σ s Ht Hi) as (Hi' & Hc' & He).
       rewrite He in Hev. simpl in Hev. subst ev'.
       exists s, issued. rewrite Hc'. now repeat split. }
  pose proof Hs as ([c Hc] & Hph & Hrq).
  destruct lbl as [c0|key v|key|j e|j|j res]; simpl in Ht;
    try discriminate; apply Nat.eqb_eq in Ht; subst j.
  - (* an event of the session *)
    simpl in Hev. rewrite Nat.eqb_refl in Hev. simpl in Hev.
    unfold advance, step. rewrite Hi. cbn [sessions calls]. rewrite Hheap.
    exists (on_event policy float_of_str (store ns info uri locked) e s),
      issued.
    split; [now apply list_lookup_insert_eq|]. split; [|exact Hcalls].
    destruct Htr as [(more & -> & Hmore & Hidle & ->)
                    |[(p & got & rest & more & -> & Hmore & Hch & Hrecv
                       & Htemp & Hbuf & Hconn & ->)
                     |[(rq & Hno & Hcall & Hcarry & Hphase & ->)
                      |(rq & Hno & Hcarry & -> & Hstate)]]].
    + injection Hev as <- <-. rewrite Hidle in Hph.
      destruct Hph as (Hcall & Hbuf & Hconn).
      right; left. unfold on_event. rewrite Hconn, Hidle. cbn [negb].
      unfold on_session_start.
      rewrite (config_get_store ns info uri locked s) by exact Hs.
      rewrite accepted.
      eexists _, [], chunks, more. cbn [phase buffer connected temperature].
      now repeat split.
    + rewrite Hrecv in Hph. destruct Hph as [Hcall Hin].
      unfold on_event. rewrite Hconn, Hrecv. cbn [negb].
      destruct rest as [|b rest]; simpl in Hev; injection Hev as <- <-.
      * right; right; left.
        exists (make_request (store ns info uri locked) p s).
        split; [exact Hmore|]. split; [reflexivity|].
        split; [|split; [now left | reflexivity]].
        split; simpl; [|exact Htemp].
        rewrite Hbuf, Hch, app_nil_r. reflexivity.
      * right; left. exists p, (got ++ [b]), rest, more.
        cbn [on_audio_chunk phase buffer connected].
        split; [reflexivity|]. split; [exact Hmore|].
        split; [rewrite Hch, <- app_assoc; reflexivity|].
        split; [exact Hrecv|]. split; [exact Htemp|].
        split; [|now split].
        rewrite Hbuf, concat_app. simpl. now rewrite app_nil_r.
    + subst ev. inversion Hno as [|x l He Hno']; subst.
      right; right; left. exists rq. split; [exact Hno'|].
      destruct (on_event_settled policy float_of_str
                  (store ns info uri locked) e s He) as [Hsame Hnext].
      { intros p. destruct Hphase; congruence. }
      rewrite Hsame. split; [exact Hcall|]. split; [exact Hcarry|].
      split; [|reflexivity].
      destruct Hnext as [->| ->]; [exact Hphase | now right].
    + subst ev. inversion Hno as [|x l He Hno']; subst.
      right; right; right. exists rq. split; [exact Hno'|].
      split; [exact Hcarry|]. split; [reflexivity|].
      destruct (on_event_settled policy float_of_str
                  (store ns info uri locked) e s He) as [Hsame Hnext].
      { intros p.
        destruct Hstate as [(r' & _ & [Hp|Hp])|(_ & [Hp|Hp])]; congruence. }
      rewrite Hsame.
      destruct Hstate as [(r' & Hcall & Hp)|(Hcall & Hp)].
      * left. exists r'. split; [exact Hcall|].
        destruct Hnext as [->| ->]; [exact Hp | now right].
      * right. split; [exact Hcall|].
        destruct Hnext as [->| ->]; [exact Hp | now right].
  - (* the session is granted the Gate *)
    simpl in Hev. subst ev'.
    unfold advance, step. rewrite Hi.
    destruct (call s) as [|rq|rq] eqn:Hcall;
      try (exists s, issued; now repeat split).
    destruct (lock_free _ _); [|exists s, issued; now repeat split].
    destruct Htr as [(more & -> & Hmore & Hidle & ->)
                    |[(p & got & rest & more & -> & Hmore & Hch & Hrecv
                       & Htemp & Hbuf & Hconn & ->)
                     |[(rq' & Hno & Hcall' & Hcarry & Hphase & ->)
                      |(rq' & Hno & Hcarry & -> & Hstate)]]].
    + rewrite Hidle in Hph. destruct Hph as [Hn _]. congruence.
    + rewrite Hrecv in Hph. destruct Hph as [Hn _]. congruence.
    + assert (rq' = rq) as -> by congruence.
      exists (with_call (InFlight rq) s), [rq]. cbn [sessions calls].
      split; [now apply list_lookup_insert_eq|].
      split.
      * right; right; right. exists rq. split; [exact Hno|].
        split; [exact Hcarry|]. split; [reflexivity|].
        left. exists rq. now split.
      * rewrite calls_of_app, Hcalls. simpl. rewrite Nat.eqb_refl.
        now rewrite app_nil_r.
    + destruct Hstate as [(r' & Hc' & _)|(Hc' & _)]; congruence.
  - (* the call of the session resolves *)
    simpl in Hev. subst ev'.
    unfold advance, step. rewrite Hi.
    destruct (call s) as [|rq|rq] eqn:Hcall;
      try (exists s, issued; now repeat split).
    exists (on_result res s), issued. cbn [sessions calls].
    split; [now apply list_lookup_insert_eq|]. split; [|exact Hcalls].
    destruct Htr as [(more & -> & Hmore & Hidle & ->)
                    |[(p & got & rest & more & -> & Hmore & Hch & Hrecv
                       & Htemp & Hbuf & Hconn & ->)
                     |[(rq' & Hno & Hcall' & Hcarry & Hphase & ->)
                      |(rq' & Hno & Hcarry & -> & Hstate)]]].
    + rewrite Hidle in Hph. destruct Hph as [Hn _]. congruence.
    + rewrite Hrecv in Hph. destruct Hph as [Hn _]. congruence.
    + congruence.
    + right; right; right. exists rq'. split; [exact Hno|].
      split; [exact Hcarry|]. split; [reflexivity|].
      right. unfold on_result.
      destruct (phase s), (connected s); cbn [call phase]; auto.
Qed.

Lemma track_run lbls : forall σ s ev ev' issued base,
  system_ok ns info uri σ -> sessions σ !! i = Some s ->
  track ev s issued -> calls_of i (calls σ) = base ++ issued ->
  ev = events_of i lbls ++ ev' ->
  exists s' issued',
    sessions (serve lbls σ) !! i = Some s' /\
    track ev' s' issued' /\
    calls_of i (calls (serve lbls σ)) = base ++ issued'.
Proof.
  induction lbls as [|lbl lbls IH]; intros σ s ev ev' issued base
    Hok Hi Htr Hcalls Hev.
  - simpl in Hev. subst ev'. exists s, issued. now repeat split.
  - assert (Hsplit : events_of i (lbl :: lbls)
                     = events_of i [lbl] ++ events_of i lbls).
    { destruct lbl; simpl; try reflexivity.
      destruct (Nat.eqb _ _); reflexivity. }
    rewrite Hsplit, <- app_assoc in Hev.
    destruct (track_step lbl σ s ev (events_of i lbls ++ ev') issued base
                Hok Hi Htr Hcalls Hev)
      as (s1 & issued1 & Hi1 & Htr1 & Hc1).
    apply (IH (advance lbl σ) s1 (events_of i lbls ++ ev') ev' issued1 base);
      try assumption.
    + apply step_ok. exact Hok.
    + reflexivity.
Qed.

End Utterance.

(** A session whose session-starts are all refused issues no request. *)
Section Refused.

Variable policy : TemperaturePolicy.
Variable float_of_str : string -> option Q.
Variable ns : gmap string PyVal.
Variable info : Info.t.
Variable uri : string.
Variable i : nat.

Let advance := step policy float_of_str.
Let serve := run policy float_of_str.

Definition refused_start (e : Event) : Prop :=
  match e with
  | SessionStart sp =>
      effective_temperature policy float_of_str (start_temperature sp)
        (configured ns "temperature") = None
  | _ => True
  end.

Definition at_rest (s : Session) : Prop :=
  call s = NoCall /\ (phase s = Idle \/ phase s = Closed).

Lemma refused_step lbl σ s :
  system_ok ns info uri σ -> sessions σ !! i = Some s -> at_rest s ->
  Forall refused_start (events_of i [lbl]) ->
  exists s',
    sessions (advance lbl σ) !! i = Some s' /\ at_rest s' /\
    calls_of i (calls (advance lbl σ)) = calls_of i (calls σ).
Proof.
  intros Hok Hi [Hcall Hphase] Hev.
  pose proof Hok as (Hf & Hss & Hcs & locked & Hheap & Hcount).
  assert (Hs : session_ok ns s) by (eapply Forall_lookup_1; eauto).
  assert (Hlt : (i < length (sessions σ))%nat)
    by (eapply lookup_lt_Some; eauto).
  destruct (touches i lbl) eqn:Ht.
  2: { destruct (step_frame policy float_of_str i lbl σ s Ht Hi)
         as (Hi' & Hc' & _).
       exists s. now repeat split. }
  destruct lbl as [c0|key v|key|j e|j|j res]; simpl in Ht;
    try discriminate; apply Nat.eqb_eq in Ht; subst j.
  - simpl in Hev. rewrite Nat.eqb_refl in Hev.
    inversion Hev as [|x l He _]; subst.
    unfold advance, step. rewrite Hi. cbn [sessions calls]. rewrite Hheap.
    eexists. split; [now apply list_lookup_insert_eq|].
    split; [|reflexivity].
    destruct (is_start e) eqn:Hst.
    + destruct e as [sp0| | |]; try discriminate Hst. simpl in He.
      unfold on_event. destruct (connected s); cbn [negb]; [|now split].
      destruct Hphase as [Hp|Hp]; rewrite Hp; [|split; auto].
      unfold on_session_start.
      rewrite (config_get_store ns info uri locked s) by exact Hs.
      rewrite He. split; auto.
    + destruct (on_event_settled policy float_of_str
                  (store ns info uri locked) e s Hst) as [Hsame Hnext].
      { intros p. destruct Hphase; congruence. }
      split; [congruence|].
      destruct Hnext as [->| ->]; [exact Hphase | now right].
  - unfold advance, step. rewrite Hi, Hcall. exists s. now repeat split.
  - unfold advance, step. rewrite Hi, Hcall. exists s. now repeat split.
Qed.

Lemma refused_run lbls : forall σ s,
  system_ok ns info uri σ -> sessions σ !! i = Some s -> at_rest s ->
  Forall refused_start (events_of i lbls) ->
  exists s',
    sessions (serve lbls σ) !! i = Some s' /\ at_rest s' /\
    calls_of i (calls (serve lbls σ)) = calls_of i (calls σ).
Proof.
  induction lbls as [|lbl lbls IH]; intros σ s Hok Hi Hrest Hev.
  - exists s. split; [exact Hi|]. split; [exact Hrest | reflexivity].
  - assert (Hsplit : events_of i (lbl :: lbls)
                     = events_of i [lbl] ++ events_of i lbls).
    { destruct lbl; simpl; try reflexivity.
      destruct (Nat.eqb _ _); reflexivity. }
    rewrite Hsplit in Hev. apply Forall_app in Hev as [Hev1 Hev2].
    destruct (refused_step lbl σ s Hok Hi Hrest Hev1)
      as (s1 & Hi1 & Hrest1 & Hc1).
    destruct (IH (advance lbl σ) s1 (step_ok _ _ _ _ _ _ _ Hok) Hi1 Hrest1
                Hev2) as (s' & Hi' & Hrest' & Hc').
    exists s'. split; [exact Hi'|]. split; [exact Hrest'|].
    etransitivity; [exact Hc' | exact Hc1].
Qed.

End Refused.

(** * The claims *)

(** A concrete deployment, for the examples. *)
Module Sample.

Definition version : string := "1.0.0".
Definition openai_default_model : string := "whisper-1".
Definition whisper_languages : list string := ["en"; "de"; "nb"].

(** A stand-in for the verdict of [AsyncServer.from_uri], enough for the
    examples: the three schemes of the wyoming library, written with
    [//]. *)
Definition supported_uri (u : string) : bool :=
  Str.startswith u "tcp://" || Str.startswith u "unix://"
  || Str.startswith u "stdio://".

Definition float_of_str (s : string) : option Q :=
  if String.eqb s "1.5" then Some (3 # 2)
  else if String.eqb s "0.5" then Some (1 # 2)
  else None.

Definition program := main version openai_default_model whisper_languages
                        supported_uri.

Definition running_of (o : Outcome Running) : Running :=
  match o with
  | Ret r _ => r
  | _ => {| server := 0; handler_factory := WhisperAPIEventHandler 0 0 0 |}
  end.

Definition world_of (o : Outcome Running) : World :=
  match o with
  | Ret _ w | Exit _ w | Raise _ w => w
  end.

Definition local_argv : list string :=
  ["--api"; "http://127.0.0.1:8080"; "--uri"; "tcp://0.0.0.0:10300"].

Definition cloud_argv : list string :=
  ["--api"; "openai"; "--uri"; "tcp://0.0.0.0:10300"].

Definition no_overrides : StartParams :=
  {| start_language := None; start_prompt := None;
     start_temperature := None |}.

End Sample.

Section Claims.

Variable __version__ : string.
Variable OPENAI_DEFAULT_MODEL : string.
Variable WHISPER_LANGUAGES : list string.
Variable supported_uri : string -> bool.
Variable policy : TemperaturePolicy.
Variable float_of_str : string -> option Q.

Let parser := build_parser __version__ OPENAI_DEFAULT_MODEL.
Let program := main __version__ OPENAI_DEFAULT_MODEL WHISPER_LANGUAGES
                 supported_uri.
Let info := make_info __version__ WHISPER_LANGUAGES.
Let serve := run policy float_of_str.

(** Every state the serving process reaches satisfies the invariant. *)
Lemma serving_ok argv env r w lbls :
  program argv (init_world env) = Ret r w ->
  exists ns u,
    parse_args (parser (os_environ_get env "OPENAI_API_KEY")) argv
      = Parsed ns /\
    heap w = store ns info u false /\
    handler_factory r = partial WhisperAPIEventHandler 1 0 3 /\
    system_ok ns info u (serve lbls (boot r w)).
Proof.
  intros H.
  destruct (main_serving _ _ _ _ _ _ _ _ H)
    as (ns & u & level & format & Hp & Hu & Hs & -> & ->).
  exists ns, u. split; [exact Hp|]. do 2 (split; [reflexivity|]).
  apply (run_ok policy float_of_str ns info u lbls).
  apply (system_ok_intro ns info u _ _ _ _ false);
    simpl; try reflexivity; constructor.
Qed.

(** An utterance of an idle session, interleaved with anything else:
    its one request carries the chunks and the accepted temperature, and
    is either issued or waiting for the Gate. *)
Lemma utterance_tracked argv env r w lbls i s sp t chunks more during :
  program argv (init_world env) = Ret r w ->
  let σ := serve lbls (boot r w) in
  sessions σ !! i = Some s -> phase s = Idle ->
  effective_temperature policy float_of_str (start_temperature sp)
    (config_get (heap (world σ)) s "temperature") = Some t ->
  events_of i during
  = SessionStart sp :: map AudioChunk chunks ++ SessionStop :: more ->
  Forall (fun e => is_start e = false) more ->
  let σ' := serve during σ in
  exists rq s',
    (audio rq = concat chunks /\ req_temperature rq = t) /\
    sessions σ' !! i = Some s' /\
    (calls_of i (calls σ') = calls_of i (calls σ) ++ [rq] \/
     (calls_of i (calls σ') = calls_of i (calls σ) /\
      call s' = AwaitingGate rq)).
Proof.
  intros H σ Hi Hidle Ht Hev Hmore σ'.
  destruct (serving_ok argv env r w lbls H)
    as (ns & u & _ & _ & _ & Hok).
  fold σ in Hok. pose proof Hok as (_ & Hss & _ & locked & Hheap & _).
  assert (Hs : session_ok ns s) by (eapply Forall_lookup_1; eauto).
  rewrite Hheap, (config_get_store ns info u locked s "temperature" Hs) in Ht.
  destruct (track_run policy float_of_str ns info u i sp t chunks Ht
              during σ s (events_of i during) [] [] (calls_of i (calls σ))
              Hok Hi)
    as (s' & issued & Hi' & Htr & Hcalls).
  { left. exists more. now repeat split. }
  { now rewrite app_nil_r. }
  { now rewrite app_nil_r. }
  fold serve in Hi', Hcalls. fold σ' in Hi', Hcalls.
  destruct Htr as [(more' & Habs & _)
                  |[(p & got & rest & more' & Habs & _)
                   |[(rq & _ & Hcall & Hcarry & _ & ->)
                    |(rq & _ & Hcarry & -> & _)]]].
  - discriminate Habs.
  - now destruct rest.
  - exists rq, s'. split; [exact Hcarry|]. split; [exact Hi'|].
    right. rewrite app_nil_r in Hcalls. now split.
  - exists rq, s'. split; [exact Hcarry|]. split; [exact Hi'|].
    now left.
Qed.

(** C1: at most one backend call is in flight, whatever the number of
    sessions and whatever they do: in every state the serving process
    reaches, the sessions whose call is in flight number at most one. *)
Theorem at_most_one_in_flight argv env r w lbls :
  program argv (init_world env) = Ret r w ->
  (inflight_count (sessions (serve lbls (boot r w))) <= 1)%nat.
Proof.
  intros H.
  destruct (serving_ok argv env r w lbls H)
    as (ns & u & _ & _ & _ & _ & _ & _ & locked & _ & Hcount).
  rewrite Hcount. destruct locked; lia.
Qed.

(** C4: [main] constructs one lock, before [server.run] is awaited; it is
    the only lock in the store at every later moment, no object is ever
    added to the store, and every handler is constructed with that
    lock. *)
Theorem one_lock_shared argv env r w :
  program argv (init_world env) = Ret r w ->
  exists l,
    heap w !! l = Some (OLock false) /\
    (forall l' b, heap w !! l' = Some (OLock b) -> l' = l) /\
    (forall c, model_lock (handler_factory r c) = l) /\
    forall lbls,
      let σ := serve lbls (boot r w) in
      length (heap (world σ)) = length (heap w) /\
      (forall l' b, heap (world σ) !! l' = Some (OLock b) -> l' = l) /\
      (forall s, In s (sessions σ) -> model_lock (ctor s) = l).
Proof.
  intros H. exists 3%nat.
  assert (Honly : forall ns u locked l' b,
    store ns info u locked !! l' = Some (OLock b) -> l' = 3%nat).
  { intros ns u locked l' b.
    destruct l' as [|[|[|[|l']]]]; simpl; try discriminate; reflexivity. }
  destruct (serving_ok argv env r w [] H) as (ns & u & _ & Hw & Hr & _).
  rewrite Hw, Hr. split; [reflexivity|]. split; [apply Honly|].
  split; [reflexivity|]. intros lbls σ.
  destruct (serving_ok argv env r w lbls H)
    as (ns' & u' & _ & _ & _ & _ & Hss & _ & locked & Hheap & _).
  fold σ in Hss, Hheap. rewrite Hheap.
  split; [reflexivity|]. split; [apply Honly|].
  intros s Hs. rewrite Forall_forall in Hss.
  apply list_elem_of_In in Hs.
  destruct (Hss s Hs) as ([c ->] & _). reflexivity.
Qed.

(** C8: the descriptor is built once, before [server.run] is awaited,
    with one program "whisper-cpp" and one model whose languages are
    [WHISPER_LANGUAGES]; every handler is constructed with that object,
    and the object never changes. *)
Theorem descriptor_built_once_and_shared argv env r w :
  program argv (init_world env) = Ret r w ->
  exists l prog model,
    heap w !! l = Some (OInfo info) /\
    (forall l' i, heap w !! l' = Some (OInfo i) -> l' = l) /\
    Info.asr info = [prog] /\
    AsrProgram.name prog = "whisper-cpp" /\
    AsrProgram.attribution prog
      = {| Attribution.name := "Michael Hansen";
           Attribution.url := "https://github.com/synesthesiam" |} /\
    AsrProgram.installed prog = true /\
    AsrProgram.version prog = __version__ /\
    AsrProgram.models prog = [model] /\
    AsrModel.languages model = WHISPER_LANGUAGES /\
    (forall c, wyoming_info (handler_factory r c) = l) /\
    forall lbls,
      let σ := serve lbls (boot r w) in
      heap (world σ) !! l = Some (OInfo info) /\
      (forall l' i, heap (world σ) !! l' = Some (OInfo i) -> l' = l) /\
      (forall s, In s (sessions σ) -> wyoming_info (ctor s) = l).
Proof.
  intros H. exists 1%nat.
  assert (Honly : forall ns u locked l' i,
    store ns info u locked !! l' = Some (OInfo i) -> l' = 1%nat).
  { intros ns u locked l' i.
    destruct l' as [|[|[|[|l']]]]; simpl; try discriminate; reflexivity. }
  destruct (serving_ok argv env r w [] H) as (ns & u & _ & Hw & Hr & _).
  rewrite Hw, Hr. do 2 eexists.
  split; [reflexivity|]. split; [apply Honly|].
  split; [reflexivity|]. do 6 (split; [reflexivity|]).
  split; [reflexivity|]. intros lbls σ.
  destruct (serving_ok argv env r w lbls H)
    as (ns' & u' & _ & _ & _ & _ & Hss & _ & locked & Hheap & _).
  fold σ in Hss, Hheap. rewrite Hheap.
  split; [reflexivity|]. split; [apply Honly|].
  intros s Hs. rewrite Forall_forall in Hss.
  apply list_elem_of_In in Hs.
  destruct (Hss s Hs) as ([c ->] & _). reflexivity.
Qed.

(** C9, as the code has it: the namespace handed to the handlers holds,
    under [temperature], the float 0.0 when no command-line string
    invokes the option; otherwise the one argument string of the last
    invocation, as it stands, unless that string is [--], for which
    [_get_values] stores the empty list.  Nothing converts or checks the
    value: a command line that starts the server still starts it with
    [--temperature=v] added at its end, whatever the string [v], and the
    handlers then receive [v]. *)
Theorem temperature_default_or_last_value argv env r w :
  program argv (init_world env) = Ret r w ->
  (exists ns,
     (forall c, heap w !! cli_args (handler_factory r c)
                = Some (ONamespace ns)) /\
     match supplied (parser (os_environ_get env "OPENAI_API_KEY"))
             temperature_flags argv with
     | None => ns !! "temperature" = Some (PyFloat 0)
     | Some vs =>
         exists v, vs = [v] /\
           ns !! "temperature"
           = Some (if String.eqb v "--" then PyList [] else PyStr v)
     end) /\
  forall v, exists r' w' ns',
    program (argv ++ ["--temperature=" +:+ v]) (init_world env)
      = Ret r' w' /\
    (forall c, heap w' !! cli_args (handler_factory r' c)
               = Some (ONamespace ns')) /\
    supplied (parser (os_environ_get env "OPENAI_API_KEY"))
      temperature_flags (argv ++ ["--temperature=" +:+ v]) = Some [v] /\
    ns' !! "temperature"
    = Some (if String.eqb v "--" then PyList [] else PyStr v).
Proof.
  intros H.
  destruct (main_serving_full _ _ _ _ _ _ _ _ H)
    as (ns & u & dbg & fmt & Hp & Hu & Hs & Hd & Hf & Hacc & -> & ->).
  fold parser in Hp. split.
  - exists ns. split; [reflexivity|].
    pose proof (parsed_temperature _ _ _ _ _ Hp) as Ht. fold parser in Ht.
    destruct (supplied _ temperature_flags argv) as [vs|].
    + destruct Ht as ([v ->] & Ht & _). exists v. split; [reflexivity|].
      rewrite Ht, get_values_one. reflexivity.
    + now destruct Ht.
  - intros v.
    set (key := os_environ_get env "OPENAI_API_KEY") in *.
    assert (Hone : parse_args (parser key)
                     (argv ++ ["--temperature=" +:+ v])
                   = Parsed (<["temperature" := get_values [v]]> ns)).
    { apply (parse_args_one_more (parser key) temperature_argument
               "--temperature" v _ argv ns Hp); reflexivity. }
    destruct (main_starts __version__ OPENAI_DEFAULT_MODEL WHISPER_LANGUAGES
                supported_uri _ env _ u fmt Hone) as (level & Hm);
      try assumption.
    { rewrite lookup_insert_ne by discriminate. exact Hu. }
    { rewrite lookup_insert_ne by discriminate. exact Hf. }
    do 2 eexists. exists (<["temperature" := get_values [v]]> ns).
    split; [exact Hm|]. split; [reflexivity|].
    split.
    + apply supplied_last_string. destruct v; vm_compute; reflexivity.
    + rewrite lookup_insert_eq, get_values_one. reflexivity.
Qed.

(** C10: when [--openai-api-key] is not given, the credential every
    session works with, and every backend request carries, is the value
    of [OPENAI_API_KEY] in the environment [main] started with, its
    absence included, whatever happens to the environment later. *)
Theorem credential_resolved_at_startup argv env r w lbls :
  program argv (init_world env) = Ret r w ->
  was_given (parser (os_environ_get env "OPENAI_API_KEY"))
    openai_api_key_flags argv = false ->
  let σ := serve lbls (boot r w) in
  (forall s, In s (sessions σ) ->
     config_get (heap (world σ)) s "openai_api_key"
     = os_environ_get env "OPENAI_API_KEY") /\
  (forall i rq, In (i, rq) (calls σ) ->
     credentials rq = os_environ_get env "OPENAI_API_KEY").
Proof.
  intros H Hgiven σ.
  destruct (serving_ok argv env r w lbls H)
    as (ns & u & Hp & _ & _ & _ & Hss & Hcs & locked & Hheap & _).
  fold σ in Hss, Hcs, Hheap.
  pose proof (parsed_openai_api_key _ _ _ _ _ Hp) as Hkey.
  fold parser in Hkey.
  destruct (supplied _ openai_api_key_flags argv);
    [destruct Hkey as (_ & _ & Hg); congruence|].
  destruct Hkey as [Hkey _].
  assert (Hcfg : configured ns "openai_api_key"
                 = os_environ_get env "OPENAI_API_KEY")
    by (unfold configured; now rewrite Hkey).
  rewrite Forall_forall in Hss. rewrite Forall_forall in Hcs. split.
  - intros s Hs. apply list_elem_of_In in Hs. rewrite Hheap.
    rewrite (config_get_store ns info u locked s) by (now apply Hss).
    exact Hcfg.
  - intros i rq Hin. apply list_elem_of_In in Hin.
    destruct (Hcs _ Hin) as (Hc & _). simpl in Hc. now rewrite Hc.
Qed.

Let advance := step policy float_of_str.

(** C2: take a session that is idle, in any state the serving process
    reaches, and any run in which the events of that session are an
    accepted session-start, then audio chunks, then session-stop, and
    after it no further session-start; the steps of other sessions, of
    the dispatcher and of the Gate may come anywhere in between, and the
    Gate may be held or free.  Then one request of the session carries
    the concatenation of the chunks in arrival order: either it is the
    one request issued for the session during the run, or none was
    issued, the session waits for the Gate with it, and it is what is
    issued when the Gate is granted. *)
Theorem audio_is_concatenation_of_chunks argv env r w lbls i s sp chunks
    more during :
  program argv (init_world env) = Ret r w ->
  let σ := serve lbls (boot r w) in
  sessions σ !! i = Some s -> phase s = Idle ->
  is_Some (effective_temperature policy float_of_str (start_temperature sp)
             (config_get (heap (world σ)) s "temperature")) ->
  events_of i during
  = SessionStart sp :: map AudioChunk chunks ++ SessionStop :: more ->
  Forall (fun e => is_start e = false) more ->
  let σ' := serve during σ in
  exists rq s',
    audio rq = concat chunks /\
    sessions σ' !! i = Some s' /\
    (calls_of i (calls σ') = calls_of i (calls σ) ++ [rq] \/
     (calls_of i (calls σ') = calls_of i (calls σ) /\
      call s' = AwaitingGate rq /\
      (lock_free (heap (world σ')) (model_lock (ctor s')) = true ->
       calls (advance (Grant i) σ') = calls σ' ++ [(i, rq)]))).
Proof.
  intros H σ Hi Hidle [t Ht] Hev Hmore σ'.
  destruct (utterance_tracked argv env r w lbls i s sp t chunks more during
              H Hi Hidle Ht Hev Hmore)
    as (rq & s' & [Haudio _] & Hi' & Hcases).
  exists rq, s'. split; [exact Haudio|]. split; [exact Hi'|].
  destruct Hcases as [Hissued|(Hnone & Hcall)]; [now left | right].
  split; [exact Hnone|]. split; [exact Hcall|].
  intros Hfree. subst σ' σ. unfold advance, step.
  rewrite Hi', Hcall, Hfree. reflexivity.
Qed.

(** C3: a Gate that is held has a holder whose call is in flight; when
    that call resolves, with a transcript or a failure, and whether or
    not the session was disconnected meanwhile, the Gate is free, no call
    is in flight, and any session waiting for the Gate obtains it. *)
Theorem gate_released_when_call_resolves argv env r w lbls :
  program argv (init_world env) = Ret r w ->
  let σ := serve lbls (boot r w) in
  (forall c, lock_held (heap (world σ)) (model_lock (handler_factory r c))
             = true ->
     exists i s, sessions σ !! i = Some s /\ is_inflight s = true) /\
  forall i s res,
    sessions σ !! i = Some s -> is_inflight s = true ->
    let σ' := advance (Resolve i res) σ in
    lock_free (heap (world σ')) (model_lock (ctor s)) = true /\
    inflight_count (sessions σ') = 0%nat /\
    forall j sj,
      sessions σ' !! j = Some sj -> is_awaiting sj = true ->
      exists sj',
        sessions (advance (Grant j) σ') !! j = Some sj' /\
        is_inflight sj' = true.
Proof.
  intros H σ.
  destruct (serving_ok argv env r w lbls H)
    as (ns & u & _ & _ & Hr & Hok).
  fold σ in Hok. pose proof Hok as (_ & Hss & _ & locked & Hheap & Hcount).
  split.
  { intros c. rewrite Hr, Hheap. cbn [partial model_lock].
    destruct locked; [|discriminate]. intros _.
    apply inflight_count_holder. rewrite Hcount. lia. }
  intros i s res Hi Hfl σ'.
  assert (Hs : session_ok ns s) by (eapply Forall_lookup_1; eauto).
  pose proof Hs as ([c Hc] & _).
  pose proof (step_ok policy float_of_str ns info u (Resolve i res) σ Hok)
    as Hok'.
  fold advance in Hok'. fold σ' in Hok'.
  assert (Hheap' : heap (world σ') = store ns info u false).
  { unfold σ', advance, step. rewrite Hi.
    unfold is_inflight in Hfl. destruct (call s); try discriminate.
    rewrite Hc, Hheap. reflexivity. }
  destruct Hok' as (_ & Hss' & _ & locked' & Hheap2 & Hcount').
  rewrite Hheap' in Hheap2.
  assert (locked' = false) as -> by (now destruct locked').
  rewrite Hheap', Hc. split; [reflexivity|]. split; [exact Hcount'|].
  intros j sj Hj Haw.
  assert (Hsj : session_ok ns sj) by (eapply Forall_lookup_1; eauto).
  destruct Hsj as ([cj Hcj] & _).
  unfold advance at 1, step. rewrite Hj.
  unfold is_awaiting in Haw. destruct (call sj) as [|rq|rq]; try discriminate.
  rewrite Hcj, Hheap'. cbn [model_lock].
  change (lock_free (store ns info u false) 3) with true. cbv iota.
  exists (with_call (InFlight rq) sj). cbn [sessions].
  split; [|reflexivity].
  apply list_lookup_insert_eq. eapply lookup_lt_Some; eauto.
Qed.

(** C5: when the call of a connected, transcribing session resolves, the
    session has sent one more event, the transcript or the error that
    matches the result, and is idle again; no other session changes, and
    the factory of the dispatcher stays as it was.  No other step adds an
    event to what the session has sent. *)
Theorem one_outcome_event (σ : System) i s :
  sessions σ !! i = Some s ->
  (forall res,
     phase s = Transcribing -> connected s = true ->
     is_inflight s = true ->
     let σ' := advance (Resolve i res) σ in
     exists s',
       sessions σ' !! i = Some s' /\
       sent s' = sent s ++ [match res with
                            | Transcript text => TranscriptEvent text
                            | Failed f => ErrorEvent f
                            end] /\
       phase s' = Idle /\ connected s' = true /\
       (forall j, j <> i -> sessions σ' !! j = sessions σ !! j) /\
       factory σ' = factory σ) /\
  (forall lbl s',
     (forall res, lbl <> Resolve i res) ->
     sessions (advance lbl σ) !! i = Some s' -> sent s' = sent s).
Proof.
  intros Hi. assert (Hlt : (i < length (sessions σ))%nat)
    by (eapply lookup_lt_Some; eauto).
  split.
  - intros res Hph Hconn Hfl σ'. unfold σ', advance, step. rewrite Hi.
    unfold is_inflight in Hfl. destruct (call s); try discriminate.
    exists (on_result res s). cbn [sessions factory].
    split; [now apply list_lookup_insert_eq|].
    unfold on_result. rewrite Hph, Hconn. cbn [sent phase connected].
    split; [now destruct res|]. do 2 (split; [reflexivity|]).
    split; [|reflexivity].
    intros j Hj. apply list_lookup_insert_ne. congruence.
  - intros lbl s' Hlbl. unfold advance, step.
    destruct lbl as [c|key v|key|j e|j|j res]; cbn [sessions].
    + rewrite lookup_app_l by exact Hlt. rewrite Hi. now intros [= <-].
    + rewrite Hi. now intros [= <-].
    + rewrite Hi. now intros [= <-].
    + destruct (decide (j = i)) as [->|Hne].
      * rewrite Hi. cbn [sessions].
        rewrite list_lookup_insert_eq by exact Hlt.
        intros [= <-]. apply on_event_sent.
      * destruct (sessions σ !! j); cbn [sessions];
          rewrite ?list_lookup_insert_ne by exact Hne;
          rewrite Hi; now intros [= <-].
    + destruct (decide (j = i)) as [->|Hne].
      * rewrite Hi. destruct (call s); try (rewrite Hi; now intros [= <-]).
        destruct (lock_free _ _); cbn [sessions];
          [|rewrite Hi; now intros [= <-]].
        rewrite list_lookup_insert_eq by exact Hlt. now intros [= <-].
      * destruct (sessions σ !! j) as [sj|];
          [|rewrite Hi; now intros [= <-]].
        destruct (call sj); try (rewrite Hi; now intros [= <-]).
        destruct (lock_free _ _); cbn [sessions];
          rewrite ?list_lookup_insert_ne by exact Hne;
          rewrite Hi; now intros [= <-].
    + destruct (decide (j = i)) as [->|Hne]; [now elim (Hlbl res)|].
      destruct (sessions σ !! j) as [sj|];
        [|rewrite Hi; now intros [= <-]].
      destruct (call sj); cbn [sessions];
        rewrite ?list_lookup_insert_ne by exact Hne;
        rewrite Hi; now intros [= <-].
Qed.

(** C6, as the code has it: [main] never looks at the credential.  With
    the cloud backend selected, no [--openai-api-key] and no
    [OPENAI_API_KEY], a command line that parses, names a supported URI
    and leaves a log format that [logging.basicConfig] takes starts the
    server, and the handlers receive a namespace whose credential is
    [None]. *)
Theorem missing_credential_not_detected argv env ns u fmt :
  env !! "OPENAI_API_KEY" = None ->
  was_given (parser PyNone) openai_api_key_flags argv = false ->
  parse_args (parser PyNone) argv = Parsed ns ->
  ns !! "api" = Some (PyStr "openai") ->
  ns !! "uri" = Some (PyStr u) -> supported_uri u = true ->
  ns !! "log_format" = Some fmt -> format_accepted fmt = true ->
  exists r w,
    program argv (init_world env) = Ret r w /\
    ns !! "openai_api_key" = Some PyNone /\
    forall c, heap w !! cli_args (handler_factory r c)
              = Some (ONamespace ns).
Proof.
  intros Henv Hgiven Hp _ Hu Hs Hf Hacc.
  assert (Hkey : os_environ_get env "OPENAI_API_KEY" = PyNone)
    by (unfold os_environ_get; now rewrite Henv).
  pose proof (parsed_openai_api_key _ _ _ _ _ Hp) as Hk.
  fold parser in Hk.
  destruct (supplied _ openai_api_key_flags argv);
    [destruct Hk as (_ & _ & Hg); congruence|].
  destruct Hk as [Hk _].
  rewrite <- Hkey in Hp.
  destruct (main_starts __version__ OPENAI_DEFAULT_MODEL WHISPER_LANGUAGES
              supported_uri argv env ns u fmt Hp Hu Hs Hf Hacc)
    as (level & Hm).
  do 2 eexists. split; [exact Hm|]. split; [exact Hk|]. reflexivity.
Qed.

(** Every request the serving process has issued carries a temperature
    in [0,1]. *)
Lemma issued_temperatures_in_unit_interval argv env r w lbls i rq :
  program argv (init_world env) = Ret r w ->
  In (i, rq) (calls (serve lbls (boot r w))) ->
  in_unit_interval (req_temperature rq) = true.
Proof.
  intros H Hin.
  destruct (serving_ok argv env r w lbls H)
    as (ns & u & _ & _ & _ & _ & _ & Hcs & _).
  rewrite Forall_forall in Hcs. apply list_elem_of_In in Hin.
  destruct (Hcs _ Hin) as (_ & _ & Ht). exact Ht.
Qed.

(** C7: take an idle session, in any state the serving process
    reaches, and an utterance (session-start, audio chunks, session-stop,
    interleaved with anything else) whose temperature, given with
    session-start or else configured with [--temperature], lies outside
    [0,1].  Under [Clamp] the one request of the utterance, issued or
    waiting for the Gate, carries the clamped value, which lies in [0,1];
    under [Reject] the session-start is refused and no request is issued
    for the session.  Whatever the policy, every request issued so far
    carries a temperature in [0,1]; clamping twice is clamping once, and
    1.5 clamps to 1.0. *)
Theorem temperature_clamped_or_rejected argv env r w lbls i s sp t chunks
    more during :
  program argv (init_world env) = Ret r w ->
  let σ := serve lbls (boot r w) in
  sessions σ !! i = Some s -> phase s = Idle ->
  match start_temperature sp with
  | Some t' => Some t'
  | None => to_float float_of_str
              (config_get (heap (world σ)) s "temperature")
  end = Some t ->
  in_unit_interval t = false ->
  events_of i during
  = SessionStart sp :: map AudioChunk chunks ++ SessionStop :: more ->
  Forall (fun e => is_start e = false) more ->
  let σ' := serve during σ in
  match policy with
  | Clamp =>
      exists rq s',
        req_temperature rq = clamp t /\
        in_unit_interval (req_temperature rq) = true /\
        audio rq = concat chunks /\
        sessions σ' !! i = Some s' /\
        (calls_of i (calls σ') = calls_of i (calls σ) ++ [rq] \/
         (calls_of i (calls σ') = calls_of i (calls σ) /\
          call s' = AwaitingGate rq))
  | Reject =>
      calls_of i (calls σ') = calls_of i (calls σ) /\
      exists s', sessions σ' !! i = Some s' /\ call s' = NoCall
  end /\
  (forall j rq, In (j, rq) (calls σ') ->
     in_unit_interval (req_temperature rq) = true) /\
  clamp (clamp t) = clamp t /\
  clamp (3 # 2) = 1%Q.
Proof.
  intros H σ Hi Hidle Hsup Hout Hev Hmore σ'.
  assert (Heff : effective_temperature policy float_of_str
                   (start_temperature sp)
                   (config_get (heap (world σ)) s "temperature")
                 = apply_policy policy t).
  { unfold effective_temperature. destruct (start_temperature sp).
    - now injection Hsup as ->.
    - now rewrite Hsup. }
  split; [|split; [|split; [apply clamp_idempotent | reflexivity]]].
  - assert (Hpol : policy = Clamp \/ policy = Reject)
      by (destruct policy; auto).
    destruct Hpol as [Hpol|Hpol].
    + assert (Heff' : effective_temperature policy float_of_str
                        (start_temperature sp)
                        (config_get (heap (world σ)) s "temperature")
                      = Some (clamp t))
        by (rewrite Heff, Hpol; reflexivity).
      rewrite Hpol.
      destruct (utterance_tracked argv env r w lbls i s sp (clamp t) chunks
                  more during H Hi Hidle Heff' Hev Hmore)
        as (rq & s' & [Haudio Htemp] & Hi' & Hcases).
      exists rq, s'. split; [exact Htemp|].
      split; [rewrite Htemp; apply clamp_in_unit_interval|].
      split; [exact Haudio|]. split; [exact Hi' | exact Hcases].
    + assert (Heff' : effective_temperature policy float_of_str
                        (start_temperature sp)
                        (config_get (heap (world σ)) s "temperature")
                      = None)
        by (rewrite Heff, Hpol; simpl; now rewrite Hout).
      rewrite Hpol. clear Heff. rename Heff' into Heff.
      destruct (serving_ok argv env r w lbls H)
        as (ns & u & _ & _ & _ & Hok).
      fold σ in Hok. pose proof Hok as (_ & Hss & _ & locked & Hheap & _).
      assert (Hs : session_ok ns s) by (eapply Forall_lookup_1; eauto).
      rewrite Hheap, (config_get_store ns info u locked s "temperature" Hs) in Heff.
      pose proof Hs as (_ & Hph & _). rewrite Hidle in Hph.
      destruct (refused_run policy float_of_str ns info u i during σ s
                  Hok Hi)
        as (s' & Hi' & [Hcall _] & Hcalls).
      { split; [tauto | now left]. }
      { rewrite Hev. constructor; [exact Heff|].
        apply Forall_app. split.
        - apply Forall_forall. intros e He.
          apply list_elem_of_In, in_map_iff in He as (b & <- & _).
          exact I.
        - constructor; [exact I|].
          eapply Forall_impl; [exact Hmore|].
          intros e He. now destruct e. }
      split; [exact Hcalls|]. exists s'. now split.
  - intros j rq Hin.
    apply (issued_temperatures_in_unit_interval argv env r w
             (lbls ++ during) j rq H).
    unfold serve. rewrite (run_app policy float_of_str). exact Hin.
Qed.

End Claims.


(** * Examples on a concrete deployment *)

Module Examples.

Import Sample.

Definition started (argv : list string) (env : gmap string string)
    : Outcome Running :=
  program argv (init_world env).

Definition local_running : Running := running_of (started local_argv ∅).
Definition local_world : World := world_of (started local_argv ∅).

Example local_starts : started local_argv ∅ = Ret local_running local_world.
Proof. vm_compute. reflexivity. Qed.

Definition hello : list byte := ["h"; "e"; "l"; "l"; "o"]%byte.
Definition there : list byte := [" "; "t"; "h"; "e"; "r"; "e"]%byte.

(** Two sessions finish their audio; the first holds the Gate, the
    second waits; the first then disconnects in the middle. *)
Definition two_sessions : list Label :=
  [ Accept 1; Accept 2;
    Deliver 0 (SessionStart no_overrides);
    Deliver 1 (SessionStart no_overrides);
    Deliver 0 (AudioChunk hello); Deliver 1 (AudioChunk there);
    Deliver 0 SessionStop; Deliver 1 SessionStop;
    Grant 0; Grant 1;
    Deliver 0 Disconnect ].

Definition busy : System :=
  run Clamp float_of_str two_sessions (boot local_running local_world).

Example busy_one_in_flight :
  map is_inflight (sessions busy) = [true; false] /\
  map is_awaiting (sessions busy) = [false; true] /\
  map phase (sessions busy) = [Closed; Transcribing] /\
  heap (world busy) !! 3%nat = Some (OLock true).
Proof. vm_compute. repeat split. Qed.

Lemma at_most_one_in_flight_witness :
  started local_argv ∅ = Ret local_running local_world /\
  (inflight_count (sessions busy) <= 1)%nat.
Proof.
  split; [vm_compute; reflexivity|].
  apply (at_most_one_in_flight version openai_default_model
           whisper_languages supported_uri Clamp float_of_str
           local_argv ∅ local_running local_world two_sessions).
  vm_compute; reflexivity.
Defined.

Definition fresh : System :=
  run Clamp float_of_str [Accept 1] (boot local_running local_world).

Definition session_at (i : nat) (σ : System) : Session :=
  match sessions σ !! i with
  | Some s => s
  | None => new_session (WhisperAPIEventHandler 0 0 0 0)
  end.

Definition two_fresh : System :=
  run Clamp float_of_str [Accept 1; Accept 2] (boot local_running local_world).

(** The utterance of session 0, while session 1 speaks, obtains the Gate
    and keeps it. *)
Definition interleaved : list Label :=
  [ Deliver 1 (SessionStart no_overrides);
    Deliver 0 (SessionStart no_overrides);
    Deliver 1 (AudioChunk there);
    Deliver 0 (AudioChunk hello);
    Deliver 1 SessionStop; Grant 1;
    Deliver 0 (AudioChunk there);
    Setenv "TZ" "UTC";
    Deliver 0 SessionStop; Grant 0 ].

Lemma audio_is_concatenation_of_chunks_witness :
  let σ' := run Clamp float_of_str interleaved two_fresh in
  exists rq s',
    audio rq = concat [hello; there] /\
    sessions σ' !! 0%nat = Some s' /\
    (calls_of 0 (calls σ') = calls_of 0 (calls two_fresh) ++ [rq] \/
     (calls_of 0 (calls σ') = calls_of 0 (calls two_fresh) /\
      call s' = AwaitingGate rq /\
      (lock_free (heap (world σ')) (model_lock (ctor s')) = true ->
       calls (step Clamp float_of_str (Grant 0) σ')
       = calls σ' ++ [(0%nat, rq)]))).
Proof.
  apply (audio_is_concatenation_of_chunks version openai_default_model
           whisper_languages supported_uri Clamp float_of_str
           local_argv ∅ local_running local_world [Accept 1; Accept 2] 0%nat
           (session_at 0 two_fresh) no_overrides [hello; there] []
           interleaved).
  - vm_compute; reflexivity.
  - vm_compute; reflexivity.
  - vm_compute; reflexivity.
  - exists 0%Q. vm_compute; reflexivity.
  - vm_compute; reflexivity.
  - constructor.
Defined.

(** In that run the Gate was busy: the request of session 0 waits, with
    both chunks in order; once session 1 is done it is issued as it
    is. *)
Example interleaved_waits_then_issues :
  let σ' := run Clamp float_of_str interleaved two_fresh in
  map (fun s => match call s with
                | AwaitingGate rq => Some (audio rq)
                | _ => None
                end) (sessions σ')
  = [Some (hello ++ there); None] /\
  map (fun x => (fst x, audio (snd x)))
    (calls (run Clamp float_of_str [Resolve 1 (Transcript "there"); Grant 0]
              σ'))
  = [(1%nat, there); (0%nat, hello ++ there)].
Proof. vm_compute. split; reflexivity. Qed.

Lemma gate_released_when_call_resolves_witness :
  let σ' := step Clamp float_of_str (Resolve 0 (Failed BackendTimeout)) busy in
  connected (session_at 0 busy) = false /\
  lock_held (heap (world busy)) 3 = true /\
  lock_free (heap (world σ')) (model_lock (ctor (session_at 0 busy))) = true /\
  inflight_count (sessions σ') = 0%nat /\
  exists s1,
    sessions (step Clamp float_of_str (Grant 1) σ') !! 1%nat = Some s1 /\
    is_inflight s1 = true.
Proof.
  intros σ'.
  destruct (gate_released_when_call_resolves version openai_default_model
              whisper_languages supported_uri Clamp float_of_str
              local_argv ∅ local_running local_world two_sessions)
    as [_ Hres]; [vm_compute; reflexivity|].
  destruct (Hres 0%nat (session_at 0 busy) (Failed BackendTimeout))
    as (Hfree & Hnone & Hnext); [vm_compute; reflexivity ..|].
  split; [vm_compute; reflexivity|]. split; [vm_compute; reflexivity|].
  split; [exact Hfree|]. split; [exact Hnone|].
  apply (Hnext 1%nat (session_at 1 σ')); vm_compute; reflexivity.
Defined.

Lemma one_lock_shared_witness :
  exists l,
    heap local_world !! l = Some (OLock false) /\
    (forall c, model_lock (handler_factory local_running c) = l) /\
    length (heap (world busy)) = length (heap local_world) /\
    forall s, In s (sessions busy) -> model_lock (ctor s) = l.
Proof.
  destruct (one_lock_shared version openai_default_model
              whisper_languages supported_uri Clamp float_of_str
              local_argv ∅ local_running local_world)
    as (l & Hl & _ & Hf & Hall); [vm_compute; reflexivity|].
  exists l. split; [exact Hl|]. split; [exact Hf|].
  destruct (Hall two_sessions) as (Hlen & _ & Hss).
  split; [exact Hlen | exact Hss].
Defined.

(** The first call has failed; the second session now holds the Gate. *)
Definition second_in_flight : System :=
  run Clamp float_of_str [Resolve 0 (Failed BackendTimeout); Grant 1] busy.

Definition unauthorized : TranscriptionResult :=
  Failed (BackendRejected 401 "Unauthorized").

Lemma one_outcome_event_witness :
  exists s',
    sessions (step Clamp float_of_str (Resolve 1 unauthorized)
                second_in_flight) !! 1%nat = Some s' /\
    sent s' = sent (session_at 1 second_in_flight)
              ++ [ErrorEvent (BackendRejected 401 "Unauthorized")] /\
    phase s' = Idle.
Proof.
  destruct (one_outcome_event Clamp float_of_str second_in_flight 1%nat
              (session_at 1 second_in_flight)) as [Hone _];
    [vm_compute; reflexivity|].
  destruct (Hone unauthorized) as (s' & Hs' & Hsent & Hidle & _);
    [vm_compute; reflexivity ..|].
  exists s'. split; [exact Hs'|]. split; [exact Hsent | exact Hidle].
Defined.

Definition cloud_namespace : gmap string PyVal :=
  match parse_args (build_parser version openai_default_model PyNone)
          cloud_argv with
  | Parsed ns => ns
  | SystemExit _ => ∅
  end.

Lemma missing_credential_not_detected_witness :
  exists r w,
    started cloud_argv ∅ = Ret r w /\
    cloud_namespace !! "openai_api_key" = Some PyNone /\
    forall c, heap w !! cli_args (handler_factory r c)
              = Some (ONamespace cloud_namespace).
Proof.
  apply (missing_credential_not_detected version openai_default_model
           whisper_languages supported_uri cloud_argv ∅ cloud_namespace
           "tcp://0.0.0.0:10300" (PyStr BASIC_FORMAT));
    vm_compute; reflexivity.
Defined.

(** C6 as the claim has it fails: the cloud backend without any
    credential starts serving, and the handlers are given [None]. *)
Lemma cloud_without_credential_starts :
  (∅ : gmap string string) !! "OPENAI_API_KEY" = None /\
  was_given (build_parser version openai_default_model PyNone)
    openai_api_key_flags cloud_argv = false /\
  exists r w ns,
    started cloud_argv ∅ = Ret r w /\
    heap w !! cli_args (handler_factory r 0) = Some (ONamespace ns) /\
    ns !! "api" = Some (PyStr "openai") /\
    ns !! "openai_api_key" = Some PyNone.
Proof.
  split; [reflexivity|]. split; [vm_compute; reflexivity|].
  exists (running_of (started cloud_argv ∅)),
         (world_of (started cloud_argv ∅)), cloud_namespace.
  split; [vm_compute; reflexivity|].
  split; [vm_compute; reflexivity|].
  split; vm_compute; reflexivity.
Qed.

Definition hot_argv : list string := local_argv ++ ["--temperature"; "1.5"].
Definition hot_running : Running := running_of (started hot_argv ∅).
Definition hot_world : World := world_of (started hot_argv ∅).

Definition hot_fresh : System :=
  run Clamp float_of_str [Accept 1; Accept 2] (boot hot_running hot_world).

(** With [--temperature 1.5] and no override, under [Clamp]. *)
Lemma temperature_clamped_or_rejected_witness :
  let σ' := run Clamp float_of_str interleaved hot_fresh in
  (exists rq s',
     req_temperature rq = clamp (3 # 2) /\
     in_unit_interval (req_temperature rq) = true /\
     audio rq = concat [hello; there] /\
     sessions σ' !! 0%nat = Some s' /\
     (calls_of 0 (calls σ') = calls_of 0 (calls hot_fresh) ++ [rq] \/
      (calls_of 0 (calls σ') = calls_of 0 (calls hot_fresh) /\
       call s' = AwaitingGate rq))) /\
  (forall j rq, In (j, rq) (calls σ') ->
     in_unit_interval (req_temperature rq) = true) /\
  clamp (clamp (3 # 2)) = clamp (3 # 2) /\
  clamp (3 # 2) = 1%Q.
Proof.
  apply (temperature_clamped_or_rejected version openai_default_model
           whisper_languages supported_uri Clamp float_of_str
           hot_argv ∅ hot_running hot_world [Accept 1; Accept 2] 0%nat
           (session_at 0 hot_fresh) no_overrides (3 # 2) [hello; there] []
           interleaved).
  - vm_compute; reflexivity.
  - vm_compute; reflexivity.
  - vm_compute; reflexivity.
  - vm_compute; reflexivity.
  - vm_compute; reflexivity.
  - vm_compute; reflexivity.
  - constructor.
Defined.

(** The same run under [Reject]: session 0 is refused and issues
    nothing; session 1, configured alike, neither. *)
Example rejected_issues_nothing :
  let σ0 := run Reject float_of_str [Accept 1; Accept 2]
              (boot hot_running hot_world) in
  let σ' := run Reject float_of_str interleaved σ0 in
  calls σ' = [] /\ map phase (sessions σ') = [Idle; Idle].
Proof. vm_compute. split; reflexivity. Qed.

(** An override outside [0,1] at session-start, under both policies. *)
Example override_clamped_or_rejected :
  let hot := {| start_language := None; start_prompt := None;
                start_temperature := Some (3 # 2) |} in
  let utterance := [Accept 1; Deliver 0 (SessionStart hot);
                    Deliver 0 (AudioChunk hello); Deliver 0 SessionStop;
                    Grant 0] in
  map (fun x => req_temperature (snd x))
    (calls (run Clamp float_of_str utterance
              (boot local_running local_world))) = [1%Q] /\
  calls (run Reject float_of_str utterance
           (boot local_running local_world)) = [].
Proof. vm_compute. split; reflexivity. Qed.

Lemma descriptor_built_once_and_shared_witness :
  exists l,
    heap local_world !! l
    = Some (OInfo (make_info version whisper_languages)) /\
    (forall c, wyoming_info (handler_factory local_running c) = l) /\
    heap (world busy) !! l
    = Some (OInfo (make_info version whisper_languages)) /\
    forall s, In s (sessions busy) -> wyoming_info (ctor s) = l.
Proof.
  destruct (descriptor_built_once_and_shared version openai_default_model
              whisper_languages supported_uri Clamp float_of_str
              local_argv ∅ local_running local_world)
    as (l & prog & model & Hl & _ & _ & _ & _ & _ & _ & _ & _ & Hf & Hall);
    [vm_compute; reflexivity|].
  exists l. split; [exact Hl|]. split; [exact Hf|].
  destruct (Hall two_sessions) as (Hkept & _ & Hss).
  split; [exact Hkept | exact Hss].
Defined.

Lemma temperature_default_or_last_value_witness :
  (exists ns,
     (forall c, heap hot_world !! cli_args (handler_factory hot_running c)
                = Some (ONamespace ns)) /\
     ns !! "temperature" = Some (PyStr "1.5")) /\
  exists r' w' ns',
    started (hot_argv ++ ["--temperature=warm"]) ∅ = Ret r' w' /\
    (forall c, heap w' !! cli_args (handler_factory r' c)
               = Some (ONamespace ns')) /\
    ns' !! "temperature" = Some (PyStr "warm").
Proof.
  destruct (temperature_default_or_last_value version openai_default_model
              whisper_languages supported_uri hot_argv ∅ hot_running
              hot_world) as [(ns & Hh & Ht) Hmore];
    [vm_compute; reflexivity|].
  split.
  - exists ns. split; [exact Hh|].
    assert (Hs : supplied (build_parser version openai_default_model
                             (os_environ_get ∅ "OPENAI_API_KEY"))
                   temperature_flags hot_argv = Some ["1.5"])
      by (vm_compute; reflexivity).
    rewrite Hs in Ht. destruct Ht as (v & [= <-] & Ht). exact Ht.
  - destruct (Hmore "warm") as (r' & w' & ns' & Hm & Hh' & _ & Ht').
    exists r', w', ns'. split; [exact Hm|]. split; [exact Hh' | exact Ht'].
Defined.

(** C9 as the claim has it fails: [--temperature=--] supplies the
    option, the server starts, and the handlers find the empty list, not
    a string, under [temperature]. *)
Lemma temperature_may_be_a_list :
  let argv := local_argv ++ ["--temperature=--"] in
  was_given (build_parser version openai_default_model PyNone)
    temperature_flags argv = true /\
  exists r w ns,
    started argv ∅ = Ret r w /\
    heap w !! cli_args (handler_factory r 0) = Some (ONamespace ns) /\
    ns !! "temperature" = Some (PyList []) /\
    forall s, ns !! "temperature" <> Some (PyStr s).
Proof.
  intros argv. split; [vm_compute; reflexivity|].
  exists (running_of (started argv ∅)), (world_of (started argv ∅)).
  eexists. split; [vm_compute; reflexivity|].
  split; [vm_compute; reflexivity|].
  split; [vm_compute; reflexivity|].
  intros s. vm_compute. discriminate.
Qed.

(** What the handlers find under [temperature]. *)
Definition temperature_of (argv : list string) : option PyVal :=
  match started argv ∅ with
  | Ret r w =>
      match heap w !! cli_args (handler_factory r 0) with
      | Some (ONamespace ns) => ns !! "temperature"
      | _ => None
      end
  | _ => None
  end.

Example temperature_not_given :
  temperature_of local_argv = Some (PyFloat 0).
Proof. vm_compute. reflexivity. Qed.

Example temperature_given_out_of_range :
  temperature_of (local_argv ++ ["--temperature"; "1.5"])
  = Some (PyStr "1.5").
Proof. vm_compute. reflexivity. Qed.

Example temperature_given_negative :
  temperature_of (local_argv ++ ["-t"; "-0.5"]) = Some (PyStr "-0.5").
Proof. vm_compute. reflexivity. Qed.

Example temperature_given_not_a_number :
  temperature_of (local_argv ++ ["--temp=warm"]) = Some (PyStr "warm").
Proof. vm_compute. reflexivity. Qed.

Definition key_env : gmap string string := {["OPENAI_API_KEY" := "sk-test"]}.
Definition key_running : Running := running_of (started cloud_argv key_env).
Definition key_world : World := world_of (started cloud_argv key_env).

(** The environment changes after startup, then a session transcribes. *)
Definition env_changes : list Label :=
  [ Setenv "OPENAI_API_KEY" "sk-other"; Accept 1;
    Deliver 0 (SessionStart no_overrides); Deliver 0 (AudioChunk hello);
    Unsetenv "OPENAI_API_KEY"; Deliver 0 SessionStop; Grant 0 ].

Lemma credential_resolved_at_startup_witness :
  let σ := run Clamp float_of_str env_changes (boot key_running key_world) in
  environ (world σ) !! "OPENAI_API_KEY" = None /\
  (forall s, In s (sessions σ) ->
     config_get (heap (world σ)) s "openai_api_key" = PyStr "sk-test") /\
  (forall i rq, In (i, rq) (calls σ) -> credentials rq = PyStr "sk-test").
Proof.
  intros σ. split; [vm_compute; reflexivity|].
  apply (credential_resolved_at_startup version openai_default_model
           whisper_languages supported_uri Clamp float_of_str
           cloud_argv key_env key_running key_world env_changes);
    vm_compute; reflexivity.
Defined.

(** The command line, as [argparse] reads it. *)

Example version_exits_first :
  started ["--version"] ∅ = Exit 0 (init_world ∅).
Proof. vm_compute. reflexivity. Qed.

Example uri_is_required :
  started ["--api"; "openai"] ∅ = Exit 2 (init_world ∅).
Proof. vm_compute. reflexivity. Qed.

Example ambiguous_prefix_is_an_error :
  started (local_argv ++ ["--l"; "en"]) ∅ = Exit 2 (init_world ∅).
Proof. vm_compute. reflexivity. Qed.

Example stray_argument_is_an_error :
  started (local_argv ++ ["extra"]) ∅ = Exit 2 (init_world ∅).
Proof. vm_compute. reflexivity. Qed.

Example short_flags_run_together :
  temperature_of (local_argv ++ ["-dt0.5"]) = Some (PyStr "0.5").
Proof. vm_compute. reflexivity. Qed.

Example supplied_is_the_last_invocation :
  let p := build_parser version openai_default_model PyNone in
  supplied p temperature_flags local_argv = None /\
  supplied p temperature_flags
    (local_argv ++ ["-t"; "0.2"; "--temperature=0.9"; "-dt0.4"; "-p"; "x"])
  = Some ["0.4"] /\
  supplied p temperature_flags (local_argv ++ ["--temp"; "-1"; "-d"])
  = Some ["-1"] /\
  supplied p ["--api"] local_argv = Some ["http://127.0.0.1:8080"].
Proof. vm_compute. repeat split. Qed.

Example last_occurrence_wins :
  temperature_of (local_argv ++ ["-t"; "0.2"; "--temperature=0.9"; "-t0.4"])
  = Some (PyStr "0.4").
Proof. vm_compute. reflexivity. Qed.

Example double_dash_value_is_a_list :
  temperature_of (local_argv ++ ["-t--"]) = Some (PyList []) /\
  temperature_of (local_argv ++ ["-dt--"]) = Some (PyList []) /\
  started (local_argv ++ ["-t"; "--"]) ∅ = Exit 2 (init_world ∅).
Proof. vm_compute. repeat split. Qed.

Example log_format_without_field_raises :
  exists w,
    started (local_argv ++ ["--log-format"; "hello"]) ∅ = Raise ValueError w
    /\ length (heap w) = 1%nat /\ trace w = [Alloc 0].
Proof. eexists. vm_compute. repeat split. Qed.

Example empty_log_format_is_taken :
  exists r w, started (local_argv ++ ["--log-format="]) ∅ = Ret r w /\
  exists r' w', started (local_argv ++ ["--log-format=--"]) ∅ = Ret r' w'.
Proof. do 2 eexists. split; [vm_compute; reflexivity|].
  do 2 eexists. vm_compute. reflexivity. Qed.

Example unsupported_uri_raises :
  exists w, started ["--api"; "openai"; "--uri"; "ftp://host"] ∅
            = Raise ValueError w.
Proof. eexists. vm_compute. reflexivity. Qed.

End Examples.

(** * Further properties of the entry point *)

(** ** An induction principle for the parse *)

Section ParseInduction.

Variable p : ArgumentParser.
Variable args : list string.
Variable P : State -> Prop.

Hypothesis P_action : forall a vs st st',
  In a p -> P st -> take_action a vs st = inl st' -> P st'.
Hypothesis P_extra : forall st s,
  P st ->
  P {| namespace := namespace st; seen := seen st; extras := extras st ++ [s] |}.

Lemma take_actions_preserves tuples : forall st st',
  Forall (in_parser p) tuples -> P st ->
  take_actions tuples st = inl st' -> P st'.
Proof.
  induction tuples as [|[a vs] rest IH]; intros st st' Hall HP; simpl.
  - now intros [= <-].
  - inversion Hall as [|x l Hx Hl]; subst.
    destruct (take_action a vs st) as [st1|c] eqn:Hta; [|discriminate].
    apply IH; [exact Hl|]. eapply P_action; eauto.
Qed.

Lemma consume_preserves n : forall toks st st',
  (length toks <= n)%nat -> Forall (tok_ok p args) toks -> P st ->
  consume p toks st = inl st' -> P st'.
Proof.
  induction n as [|n IH]; intros toks st st' Hlen Hall HP.
  { destruct toks; [|simpl in Hlen; lia]. simpl. now intros [= <-]. }
  destruct toks as [|[s pat] rest]; [simpl; now intros [= <-]|].
  simpl in Hlen. inversion Hall as [|x l [Hs Hpat] Hrest]; subst.
  simpl in Hs, Hpat. simpl.
  destruct pat as [| |t].
  - apply IH; [lia | exact Hrest | now apply P_extra].
  - apply IH; [lia | exact Hrest | now apply P_extra].
  - destruct (consume_optional p t) as [done pending| |] eqn:Hco;
      [| apply IH; [lia | exact Hrest | now apply P_extra] | discriminate].
    destruct (consume_optional_ok p s t done pending Hpat Hco)
      as [Hdone Hpend].
    assert (Hdone' : Forall (in_parser p) done).
    { eapply Forall_impl; [exact Hdone|].
      intros x. apply action_ok_in_parser. }
    destruct pending as [a|].
    + destruct rest as [|[v [| |t']] rest']; try discriminate.
      destruct (take_actions (done ++ [(a, [v])]) st) as [st1|c] eqn:Hta;
        [|discriminate].
      inversion Hrest as [|y l' [Hv _] Hrest']; subst. simpl in Hv.
      apply IH; [simpl in Hlen; lia | exact Hrest' |].
      eapply take_actions_preserves; [|exact HP|exact Hta].
      apply Forall_app. split; [exact Hdone'|].
      constructor; [|constructor].
      destruct (Hpend a eq_refl) as [Ha Htv]. exact Ha.
    + destruct (take_actions done st) as [st1|c] eqn:Hta; [|discriminate].
      apply IH; [lia | exact Hrest |].
      eapply take_actions_preserves; eauto.
Qed.

Lemma parse_known_args_preserves st :
  P {| namespace := with_defaults p; seen := []; extras := [] |} ->
  parse_known_args p args = inl st -> P st.
Proof.
  intros H0. unfold parse_known_args.
  destruct (classify p false args) as [toks|] eqn:Hc; [|discriminate].
  destruct (consume p toks _) as [st1|c] eqn:Hco; [|discriminate].
  destruct (missing_required p st1); [discriminate|].
  intros [= <-].
  eapply (consume_preserves (length toks) toks); [apply le_n | | | exact Hco].
  - eapply classify_ok; [|exact Hc]. intros x Hx. exact Hx.
  - exact H0.
Qed.

End ParseInduction.

(** ** Flags, required options, exit statuses, attributes *)

(** A [store_true] option holds [True] exactly when it was given. *)
Lemma parse_args_flag p args flags k ns :
  (forall a, In a p -> option_strings a = flags ->
             dest a = k /\ action a = StoreTrue) ->
  (forall a, In a p -> option_strings a <> flags ->
             writes_dest a = true -> dest a <> k) ->
  with_defaults p !! k = Some (PyBool false) ->
  parse_args p args = Parsed ns ->
  ns !! k = Some (PyBool (was_given p flags args)).
Proof.
  intros Hflag Hother Hdef. unfold parse_args, was_given.
  destruct (parse_known_args p args) as [st|c] eqn:Hp; [|discriminate].
  destruct (extras st); [|discriminate]. intros [= <-].
  apply (parse_known_args_preserves p args
           (fun st => namespace st !! k = Some (PyBool (given_in flags st))))
    with (st := st);
    [| intros st0 s H; exact H | exact Hdef | exact Hp].
  clear st Hp. intros a vs st st' Ha HP.
  unfold take_action, given_in in *.
  destruct (decide (option_strings a = flags)) as [Heq|Hne].
  - destruct (Hflag a Ha Heq) as [Hd Hact]. rewrite Hact.
    intros [= <-]. simpl. rewrite bool_decide_eq_true_2 by exact Heq.
    simpl. rewrite Hd. apply lookup_insert_eq.
  - pose proof (Hother a Ha Hne) as Hdest. unfold writes_dest in Hdest.
    destruct (action a); try discriminate;
      intros [= <-]; simpl;
      rewrite bool_decide_eq_false_2 by exact Hne; simpl;
      rewrite ?lookup_insert_ne by (apply Hdest; reflexivity);
      exact HP.
Qed.

(** A parse that succeeds has seen every required option. *)
Lemma parse_known_args_required p args st a :
  parse_known_args p args = inl st ->
  In a p -> required a = true -> was_seen st a = true.
Proof.
  unfold parse_known_args.
  destruct (classify p false args) as [toks|]; [|discriminate].
  destruct (consume p toks _) as [st1|c]; [|discriminate].
  destruct (missing_required p st1) eqn:Hm; [discriminate|].
  intros [= <-] Ha Hreq. unfold missing_required in Hm.
  destruct (was_seen st1 a) eqn:Hs; [reflexivity|].
  assert (existsb (fun a => required a && negb (was_seen st1 a)) p = true);
    [|congruence].
  apply existsb_exists. exists a. split; [exact Ha|]. now rewrite Hreq, Hs.
Qed.

Lemma parse_args_required p args ns a :
  parse_args p args = Parsed ns ->
  In a p -> required a = true -> was_given p (option_strings a) args = true.
Proof.
  unfold parse_args, was_given.
  destruct (parse_known_args p args) as [st|c] eqn:Hp; [|discriminate].
  intros _ Ha Hreq. exact (parse_known_args_required p args st a Hp Ha Hreq).
Qed.

(** The parse exits with status 0, after [help] or [version], or 2. *)
Lemma take_actions_exit tuples : forall st c,
  take_actions tuples st = inr c -> c = 0%Z.
Proof.
  induction tuples as [|[a vs] rest IH]; intros st c; simpl; [discriminate|].
  destruct (take_action a vs st) as [st1|c1] eqn:Hta.
  - apply IH.
  - intros [= <-]. unfold take_action in Hta.
    destruct (action a); congruence.
Qed.

Lemma consume_exit p n : forall toks st c,
  (length toks <= n)%nat ->
  consume p toks st = inr c -> c = 0%Z \/ c = 2%Z.
Proof.
  induction n as [|n IH]; intros toks st c Hlen.
  { destruct toks; [|simpl in Hlen; lia]. discriminate. }
  destruct toks as [|[s pat] rest]; [discriminate|].
  simpl in Hlen. simpl.
  destruct pat as [| |t]; try (apply IH; lia).
  destruct (consume_optional p t) as [done [a|]| |];
    [| | apply IH; lia | intros [= <-]; now right].
  - destruct rest as [|[v [| |t']] rest'];
      try (intros [= <-]; now right).
    destruct (take_actions _ st) as [st1|c1] eqn:Hta.
    + apply IH. simpl in Hlen. lia.
    + intros [= <-]. left. eapply take_actions_exit; eauto.
  - destruct (take_actions done st) as [st1|c1] eqn:Hta.
    + apply IH. lia.
    + intros [= <-]. left. eapply take_actions_exit; eauto.
Qed.

Lemma parse_args_exit p args c :
  parse_args p args = SystemExit c -> c = 0%Z \/ c = 2%Z.
Proof.
  unfold parse_args, parse_known_args.
  destruct (classify p false args) as [toks|];
    [|intros [= <-]; now right].
  destruct (consume p toks _) as [st|c1] eqn:Hco.
  - destruct (missing_required p st); [intros [= <-]; now right|].
    destruct (extras st); [discriminate|]. intros [= <-]. now right.
  - intros [= <-]. eapply (consume_exit p (length toks) toks); eauto.
Qed.

(** Every destination of the parser has its default in the namespace
    before the command line is read. *)
Lemma with_defaults_has p a :
  In a p -> writes_dest a = true -> is_Some (with_defaults p !! dest a).
Proof.
  unfold with_defaults. generalize (∅ : gmap string PyVal).
  induction p as [|x p IH]; intros m; [intros []|].
  assert (Hkeep : forall q (m : gmap string PyVal) k,
    is_Some (m !! k) ->
    is_Some (fold_left
      (fun ns a => if writes_dest a then
                     match ns !! dest a with
                     | Some _ => ns
                     | None => <[dest a := default a]> ns
                     end
                   else ns) q m !! k)).
  { clear. induction q as [|y q IHq]; intros m k Hk; [exact Hk|].
    simpl. apply IHq. destruct (writes_dest y); [|exact Hk].
    destruct (m !! dest y) eqn:Hy; [exact Hk|].
    apply lookup_insert_is_Some. destruct (decide (dest y = k)); auto. }
  intros [->|Hin] Hw; simpl.
  - apply Hkeep. rewrite Hw. destruct (m !! dest a) eqn:Ha.
    + rewrite Ha. eauto.
    + apply lookup_insert_is_Some. now left.
  - now apply IH.
Qed.

(** The attributes of the namespace are those of the defaults: reading
    the command line adds none and removes none. *)
Lemma parse_args_dom p args ns :
  parse_args p args = Parsed ns ->
  dom ns = dom (with_defaults p).
Proof.
  unfold parse_args.
  destruct (parse_known_args p args) as [st|c] eqn:Hp; [|discriminate].
  destruct (extras st); [|discriminate]. intros [= <-].
  apply (parse_known_args_preserves p args
           (fun st => dom (namespace st) = dom (with_defaults p)))
    with (st := st);
    [| intros st0 s H; exact H | reflexivity | exact Hp].
  clear st Hp. intros a vs st st' Ha HP.
  pose proof (with_defaults_has p a Ha) as Hhas.
  unfold take_action, writes_dest in *.
  assert (Hins : forall v, action a = Store \/ action a = StoreTrue ->
            dom (<[dest a := v]> (namespace st)) = dom (with_defaults p)).
  { intros v Hact. rewrite dom_insert_lookup_L; [exact HP|].
    apply elem_of_dom. rewrite HP. apply elem_of_dom, Hhas.
    destruct Hact as [-> | ->]; reflexivity. }
  destruct (action a) eqn:Hact; try discriminate.
  - intros [= <-]; simpl. apply Hins. now left.
  - intros [= <-]; simpl. apply Hins. now right.
Qed.

(** ** Every way [main] can end *)

Definition api_flags : list string := ["--api"].
Definition uri_flags : list string := ["--uri"].
Definition openai_model_flags : list string := ["-m"; "--openai-model"].
Definition language_flags : list string := ["-l"; "--language"].
Definition prompt_flags : list string := ["-p"; "--prompt"].
Definition debug_flags : list string := ["-d"; "--debug"].
Definition log_format_flags : list string := ["--log-format"].

(** What the namespace holds for a [store] option with default [d]: the
    default when no string of the command line invokes the option, and
    otherwise the argument string of the last invocation, or the empty
    list when that string is [--]. *)
Definition stored_option (p : ArgumentParser) (flags : list string)
    (argv : list string) (d : PyVal) (v : option PyVal) : Prop :=
  match supplied p flags argv with
  | None => v = Some d /\ was_given p flags argv = false
  | Some vs =>
      exists s, vs = [s] /\
        v = Some (if String.eqb s "--" then PyList [] else PyStr s) /\
        was_given p flags argv = true
  end.

Lemma parse_args_stored p args flags k d ns :
  (forall a, In a p -> option_strings a = flags ->
             dest a = k /\ action a = Store) ->
  (forall a, In a p -> option_strings a <> flags ->
             writes_dest a = true -> dest a <> k) ->
  with_defaults p !! k = Some d ->
  parse_args p args = Parsed ns ->
  stored_option p flags args d (ns !! k).
Proof.
  intros Hflag Hother Hdef Hp.
  pose proof (parse_args_store p args flags k d Hflag Hother Hdef ns Hp)
    as H.
  unfold stored_option. destruct (supplied p flags args) as [vs|].
  - destruct H as ([s ->] & Hv & Hg). exists s.
    rewrite Hv, get_values_one. now repeat split.
  - exact H.
Qed.

Ltac store_option :=
  apply parse_args_stored;
  [ let a := fresh "a" in let Ha := fresh "Ha" in let Hf := fresh "Hf" in
    intros a Ha Hf; parser_cases Ha; try discriminate Hf; now split
  | let a := fresh "a" in let Ha := fresh "Ha" in let Hf := fresh "Hf" in
    let Hw := fresh "Hw" in
    intros a Ha Hf Hw; parser_cases Ha;
    solve [ discriminate Hw | discriminate | now elim Hf ]
  | reflexivity ].

Section EntryPoint.

Variable __version__ : string.
Variable OPENAI_DEFAULT_MODEL : string.
Variable WHISPER_LANGUAGES : list string.
Variable supported_uri : string -> bool.

Let parser := build_parser __version__ OPENAI_DEFAULT_MODEL.
Let program := main __version__ OPENAI_DEFAULT_MODEL WHISPER_LANGUAGES
                 supported_uri.
Let info := make_info __version__ WHISPER_LANGUAGES.

Lemma parsed_option key argv ns :
  parse_args (parser key) argv = Parsed ns ->
  stored_option (parser key) api_flags argv PyNone (ns !! "api") /\
  stored_option (parser key) uri_flags argv PyNone (ns !! "uri") /\
  stored_option (parser key) openai_model_flags argv
    (PyStr OPENAI_DEFAULT_MODEL) (ns !! "openai_model") /\
  stored_option (parser key) language_flags argv PyNone (ns !! "language") /\
  stored_option (parser key) prompt_flags argv PyNone (ns !! "prompt") /\
  stored_option (parser key) log_format_flags argv (PyStr BASIC_FORMAT)
    (ns !! "log_format") /\
  stored_option (parser key) openai_api_key_flags argv key
    (ns !! "openai_api_key").
Proof.
  intros Hp. repeat split; revert Hp; store_option.
Qed.

Lemma parsed_debug key argv ns :
  parse_args (parser key) argv = Parsed ns ->
  ns !! "debug" = Some (PyBool (was_given (parser key) debug_flags argv)).
Proof.
  apply parse_args_flag.
  - intros a Ha Hf. parser_cases Ha; try discriminate Hf. now split.
  - intros a Ha Hf Hw. parser_cases Ha;
      solve [ discriminate Hw | discriminate | now elim Hf ].
  - reflexivity.
Qed.

Lemma parsed_required key argv ns :
  parse_args (parser key) argv = Parsed ns ->
  was_given (parser key) api_flags argv = true /\
  was_given (parser key) uri_flags argv = true.
Proof.
  intros Hp. split.
  - apply (parse_args_required (parser key) argv ns
             {| option_strings := ["--api"]; dest := "api"; required := true;
                default := PyNone; action := Store |} Hp);
      [right; left; reflexivity | reflexivity].
  - apply (parse_args_required (parser key) argv ns
             {| option_strings := ["--uri"]; dest := "uri"; required := true;
                default := PyNone; action := Store |} Hp);
      [right; right; left; reflexivity | reflexivity].
Qed.

(** The world [main] leaves when [logging.basicConfig] refuses the
    format. *)
Definition unconfigured (env : gmap string string) (ns : gmap string PyVal)
    : World :=
  {| environ := env; heap := [ONamespace ns]; trace := [Alloc 0] |}.

(** The world [main] leaves when the URI is refused. *)
Definition refused (env : gmap string string) (ns : gmap string PyVal)
    (level : LogLevel) (format : PyVal) : World :=
  {| environ := env;
     heap := [ONamespace ns; OInfo info];
     trace := [Alloc 0; BasicConfig level format; LogArgs DEBUG 0; Alloc 1] |}.

(** The world [main] leaves when it awaits [server.run]. *)
Definition serving (env : gmap string string) (ns : gmap string PyVal)
    (level : LogLevel) (format : PyVal) (u : string) : World :=
  {| environ := env;
     heap := [ONamespace ns; OInfo info; OServer u; OLock false];
     trace := [Alloc 0; BasicConfig level format; LogArgs DEBUG 0;
               Alloc 1; Alloc 2; LogMsg INFO "Ready"; Alloc 3] |}.

(** A value that a [store] option left: a string or the empty list. *)
Definition str_or_empty_list (v : PyVal) : Prop :=
  (exists s, v = PyStr s) \/ v = PyList [].

Lemma stored_option_shape p flags argv s v :
  stored_option p flags argv (PyStr s) (Some v) -> str_or_empty_list v.
Proof.
  unfold stored_option. destruct (supplied p flags argv) as [vs|].
  - intros (x & _ & [= ->] & _).
    destruct (String.eqb x "--"); [now right | left; eauto].
  - intros [[= ->] _]. left. eauto.
Qed.

(** [main] in full: what it returns and the world it leaves, by the
    result of the parse, the verdict of [logging] on the format and the
    verdict on the URI. *)
Lemma main_cases argv env :
  match parse_args (parser (os_environ_get env "OPENAI_API_KEY")) argv with
  | SystemExit c => program argv (init_world env) = Exit c (init_world env)
  | Parsed ns =>
      exists uri format,
        ns !! "uri" = Some uri /\ str_or_empty_list uri /\
        ns !! "log_format" = Some format /\ str_or_empty_list format /\
        let level :=
          if was_given (parser (os_environ_get env "OPENAI_API_KEY"))
               debug_flags argv
          then DEBUG else INFO in
        program argv (init_world env)
        = if format_accepted format then
            match uri with
            | PyStr u =>
                if supported_uri u
                then Ret {| server := 2;
                            handler_factory :=
                              partial WhisperAPIEventHandler 1 0 3 |}
                         (serving env ns level format u)
                else Raise ValueError (refused env ns level format)
            | _ => Raise ValueError (refused env ns level format)
            end
          else Raise ValueError (unconfigured env ns)
  end.
Proof.
  set (key := os_environ_get env "OPENAI_API_KEY").
  destruct (parse_args (parser key) argv) as [ns|c] eqn:Hp.
  - destruct (parsed_required key argv ns Hp) as [_ Huri].
    destruct (parsed_option key argv ns Hp)
      as (_ & Hu & _ & _ & _ & Hfmt & _).
    pose proof (parsed_debug key argv ns Hp) as Hdbg.
    assert (exists uri, ns !! "uri" = Some uri /\ str_or_empty_list uri)
      as (uri & Hu' & Hushape).
    { unfold stored_option in Hu.
      destruct (supplied (parser key) uri_flags argv) as [vs|].
      - destruct Hu as (x & _ & Hv & _). eexists. split; [exact Hv|].
        destruct (String.eqb x "--"); [now right | left; eauto].
      - destruct Hu as [_ Hg]. congruence. }
    assert (exists format, ns !! "log_format" = Some format)
      as [format Hformat].
    { unfold stored_option in Hfmt.
      destruct (supplied (parser key) log_format_flags argv) as [vs|].
      - destruct Hfmt as (x & _ & Hv & _). eauto.
      - destruct Hfmt as [Hv _]. eauto. }
    assert (Hfshape : str_or_empty_list format).
    { rewrite Hformat in Hfmt. eapply stored_option_shape; eauto. }
    exists uri, format. split; [exact Hu'|]. split; [exact Hushape|].
    split; [exact Hformat|]. split; [exact Hfshape|]. cbv zeta.
    unfold program, main, bind, getenv. simpl.
    fold (parser (os_environ_get env "OPENAI_API_KEY")). fold key.
    rewrite Hp.
    unfold new, getattr; simpl.
    rewrite Hdbg. simpl. rewrite Hformat. simpl.
    destruct (format_accepted format) eqn:Hacc.
    + rewrite (basic_config_accepted _ _ _ Hacc).
      unfold emit, from_uri, new, ret, raise; simpl.
      rewrite Hu'. simpl.
      destruct Hushape as [[u ->]| ->]; [|reflexivity].
      destruct (supported_uri u); reflexivity.
    + rewrite (basic_config_refused _ _ _ Hacc).
      destruct Hfshape as [[f ->]| ->]; [reflexivity | discriminate Hacc].
  - unfold program, main, bind, getenv. simpl.
    fold (parser (os_environ_get env "OPENAI_API_KEY")). fold key.
    rewrite Hp. reflexivity.
Qed.

End EntryPoint.

Section EntryProperties.

Variable __version__ : string.
Variable OPENAI_DEFAULT_MODEL : string.
Variable WHISPER_LANGUAGES : list string.
Variable supported_uri : string -> bool.

Let parser := build_parser __version__ OPENAI_DEFAULT_MODEL.
Let program := main __version__ OPENAI_DEFAULT_MODEL WHISPER_LANGUAGES
                 supported_uri.

Ltac main_by_cases H argv env Hc :=
  cbv zeta; unfold program, parser in *;
  pose proof (main_cases __version__ OPENAI_DEFAULT_MODEL WHISPER_LANGUAGES
                supported_uri argv env) as Hc.

(** X1: [--api] and [--uri] are required.  When [main] gets as far as
    [server.run], the command line supplied both; the namespace holds
    the API string of the last [--api] (the empty list if that string is
    [--]) and the URI string of the last [--uri], and the server object
    was built from that very URI string, which [from_uri] accepted. *)
Theorem serving_needs_api_and_uri argv env r w :
  program argv (init_world env) = Ret r w ->
  let p := parser (os_environ_get env "OPENAI_API_KEY") in
  was_given p api_flags argv = true /\
  was_given p uri_flags argv = true /\
  exists ns a u,
    (forall c, heap w !! cli_args (handler_factory r c)
               = Some (ONamespace ns)) /\
    supplied p api_flags argv = Some [a] /\
    ns !! "api" = Some (if String.eqb a "--" then PyList [] else PyStr a) /\
    supplied p uri_flags argv = Some [u] /\
    ns !! "uri" = Some (PyStr u) /\
    heap w !! server r = Some (OServer u) /\
    supported_uri u = true.
Proof.
  intros H. cbv zeta. unfold program, parser in *.
  destruct (main_serving _ _ _ _ _ _ _ _ H)
    as (ns & u & level & format & Hp & Hu & Hs & -> & ->).
  destruct (parsed_required _ _ _ _ _ Hp) as [Hga Hgu].
  destruct (parsed_option _ _ _ _ _ Hp) as (Ha & Hu' & _).
  split; [exact Hga|]. split; [exact Hgu|].
  unfold stored_option in Ha, Hu'.
  destruct (supplied _ api_flags argv) as [va|];
    [|destruct Ha as [_ Ha]; congruence].
  destruct (supplied _ uri_flags argv) as [vu|];
    [|destruct Hu' as [_ Hu']; congruence].
  destruct Ha as (a & -> & Ha & _). destruct Hu' as (x & -> & Hx & _).
  assert (x = u) as ->.
  { rewrite Hu in Hx. destruct (String.eqb x "--"); congruence. }
  exists ns, a, u. now repeat split.
Qed.

(** X2: when [main] exits, the status is 0 or 2 and nothing has happened
    yet: logging is not configured, no object exists, and the environment
    is as it was. *)
Theorem exit_leaves_nothing_behind argv env c w :
  program argv (init_world env) = Exit c w ->
  (c = 0%Z \/ c = 2%Z) /\ w = init_world env.
Proof.
  intros H. main_by_cases H argv env Hc.
  destruct (parse_args _ argv) as [ns|c'] eqn:Hp.
  - destruct Hc as (uri & format & _ & _ & _ & _ & Hm). cbv zeta in Hm.
    rewrite Hm in H.
    destruct (format_accepted format); [|discriminate].
    destruct uri as [| |u| |l]; try discriminate.
    destruct (supported_uri u); discriminate.
  - rewrite Hc in H. injection H as <- <-.
    split; [|reflexivity]. eapply parse_args_exit; eauto.
Qed.

(** X3: the only exception [main] raises before serving is [ValueError]
    (no [AttributeError] or [TypeError] from [args.debug],
    [args.log_format] or [args.uri]), in one of two places.  Either
    [logging.basicConfig] refuses a log format without a field: then
    only the namespace exists and nothing is configured or logged.  Or
    [AsyncServer.from_uri] refuses the URI, a string it does not support
    or the empty list left by [--uri=--]: then logging is configured and
    the namespace and the descriptor exist, but no server and no lock
    were built, and "Ready" was not logged. *)
Theorem raises_only_value_error argv env e w :
  program argv (init_world env) = Raise e w ->
  e = ValueError /\
  environ w = env /\
  exists ns,
    parse_args (parser (os_environ_get env "OPENAI_API_KEY")) argv
      = Parsed ns /\
    ((exists fs,
        ns !! "log_format" = Some (PyStr fs) /\
        fs <> "" /\ Logging.search fs = false /\
        heap w = [ONamespace ns] /\ trace w = [Alloc 0])
     \/
     (exists level format,
        ((exists u, ns !! "uri" = Some (PyStr u) /\ supported_uri u = false)
         \/ ns !! "uri" = Some (PyList [])) /\
        ns !! "log_format" = Some format /\
        format_accepted format = true /\
        heap w = [ONamespace ns;
                  OInfo (make_info __version__ WHISPER_LANGUAGES)] /\
        trace w = [Alloc 0; BasicConfig level format; LogArgs DEBUG 0;
                   Alloc 1])).
Proof.
  intros H. main_by_cases H argv env Hc.
  destruct (parse_args _ argv) as [ns|c'] eqn:Hp.
  - destruct Hc as (uri & format & Hu & Hushape & Hf & Hfshape & Hm).
    cbv zeta in Hm. rewrite Hm in H.
    destruct (format_accepted format) eqn:Hacc.
    + destruct Hushape as [[u ->]| ->].
      * destruct (supported_uri u) eqn:Hs; [discriminate|].
        injection H as <- <-. split; [reflexivity|].
        split; [reflexivity|]. exists ns. split; [reflexivity|]. right.
        do 2 eexists. split; [left; eauto|]. now repeat split.
      * injection H as <- <-. split; [reflexivity|].
        split; [reflexivity|]. exists ns. split; [reflexivity|]. right.
        do 2 eexists. split; [now right|]. now repeat split.
    + injection H as <- <-. split; [reflexivity|].
      split; [reflexivity|]. exists ns. split; [reflexivity|]. left.
      destruct Hfshape as [[fs ->]| ->]; [|discriminate Hacc].
      exists fs. split; [exact Hf|].
      unfold format_accepted in Hacc. simpl in Hacc.
      apply orb_false_iff in Hacc as [Hne Hsearch].
      split; [|now repeat split].
      intros ->. discriminate Hne.
  - rewrite Hc in H. discriminate.
Qed.

(** X4: logging is configured once, before anything else is built: at
    level DEBUG exactly when [-d/--debug] was given and at INFO
    otherwise; with [logging.BASIC_FORMAT] when no string invokes
    [--log-format], and otherwise with the argument string of its last
    invocation (the empty list if that string is [--]).  To get as far
    as [server.run], that format is one [logging.basicConfig] takes. *)
Theorem logging_follows_debug_and_log_format argv env r w :
  program argv (init_world env) = Ret r w ->
  let p := parser (os_environ_get env "OPENAI_API_KEY") in
  exists format,
    trace w = [Alloc 0;
               BasicConfig (if was_given p debug_flags argv
                            then DEBUG else INFO) format;
               LogArgs DEBUG 0; Alloc 1; Alloc 2;
               LogMsg INFO "Ready"; Alloc 3] /\
    format_accepted format = true /\
    match supplied p log_format_flags argv with
    | None => format = PyStr BASIC_FORMAT
    | Some vs =>
        exists s, vs = [s] /\
          format = if String.eqb s "--" then PyList [] else PyStr s
    end.
Proof.
  intros H. cbv zeta. unfold program, parser in *.
  destruct (main_serving_full _ _ _ _ _ _ _ _ H)
    as (ns & u & dbg & fmt & Hp & Hu & Hs & Hd & Hf & Hacc & -> & ->).
  destruct (parsed_option _ _ _ _ _ Hp) as (_ & _ & _ & _ & _ & Hfmt & _).
  pose proof (parsed_debug _ _ _ _ _ Hp) as Hdbg.
  rewrite Hd in Hdbg. injection Hdbg as ->.
  exists fmt. split; [reflexivity|]. split; [exact Hacc|].
  unfold stored_option in Hfmt. rewrite Hf in Hfmt.
  destruct (supplied _ log_format_flags argv) as [vs|].
  - destruct Hfmt as (s & -> & [= ->] & _). eauto.
  - destruct Hfmt as [[= ->] _]. reflexivity.
Qed.

(** X5: the optional settings.  The namespace the handlers receive holds,
    for the model, [OPENAI_DEFAULT_MODEL] unless the command line
    supplies [-m/--openai-model]; for language and prompt, [None] unless
    supplied; for the credential, the value of the environment unless
    supplied.  A setting that is supplied holds the argument string of
    its last invocation (the empty list if that string is [--]), so a
    credential on the command line takes precedence over the
    environment. *)
Theorem optional_settings_default_or_given argv env r w :
  program argv (init_world env) = Ret r w ->
  let p := parser (os_environ_get env "OPENAI_API_KEY") in
  exists ns,
    (forall c, heap w !! cli_args (handler_factory r c)
               = Some (ONamespace ns)) /\
    stored_option p openai_model_flags argv (PyStr OPENAI_DEFAULT_MODEL)
      (ns !! "openai_model") /\
    stored_option p language_flags argv PyNone (ns !! "language") /\
    stored_option p prompt_flags argv PyNone (ns !! "prompt") /\
    stored_option p openai_api_key_flags argv
      (os_environ_get env "OPENAI_API_KEY") (ns !! "openai_api_key").
Proof.
  intros H. cbv zeta. unfold program, parser in *.
  destruct (main_serving _ _ _ _ _ _ _ _ H)
    as (ns & u & level & format & Hp & _ & _ & -> & ->).
  destruct (parsed_option _ _ _ _ _ Hp)
    as (_ & _ & Hm & Hl & Hpr & _ & Hk).
  exists ns. split; [reflexivity|]. now repeat split.
Qed.

End EntryProperties.

(** The defaults that [main]'s parser writes. *)
Definition default_namespace (OPENAI_DEFAULT_MODEL : string) (key : PyVal)
    : gmap string PyVal :=
  <["log_format" := PyStr BASIC_FORMAT]>
  (<["debug" := PyBool false]>
  (<["temperature" := PyFloat 0]>
  (<["prompt" := PyNone]>
  (<["language" := PyNone]>
  (<["openai_model" := PyStr OPENAI_DEFAULT_MODEL]>
  (<["openai_api_key" := key]>
  (<["uri" := PyNone]>
  (<["api" := PyNone]> ∅)))))))).

Lemma with_defaults_build_parser version model key :
  with_defaults (build_parser version model key) = default_namespace model key.
Proof. reflexivity. Qed.

(** X6: the namespace the handlers receive has the nine attributes that
    the option declarations name, and no other: [help] and [version] leave
    no attribute. *)
Theorem namespace_attributes version model languages supported_uri
    argv env r w :
  main version model languages supported_uri argv (init_world env) = Ret r w ->
  exists ns,
    (forall c, heap w !! cli_args (handler_factory r c)
               = Some (ONamespace ns)) /\
    forall k,
      is_Some (ns !! k) <->
      In k ["api"; "uri"; "openai_api_key"; "openai_model"; "language";
            "prompt"; "temperature"; "debug"; "log_format"].
Proof.
  intros H.
  destruct (main_serving _ _ _ _ _ _ _ _ H)
    as (ns & u & level & format & Hp & _ & _ & -> & ->).
  exists ns. split; [reflexivity|]. intros k.
  pose proof (parse_args_dom _ _ _ Hp) as Hdom.
  rewrite <- elem_of_dom, Hdom, elem_of_dom, with_defaults_build_parser.
  unfold default_namespace.
  rewrite !lookup_insert_is_Some', lookup_empty.
  assert (Hnone : ~ is_Some (@None PyVal)) by (intros [x Hx]; discriminate).
  cbn [In]. clear -Hnone.
  split.
  - intros [<-|[<-|[<-|[<-|[<-|[<-|[<-|[<-|[<-|Hk]]]]]]]]];
      try (now elim Hnone); auto 12.
  - intros [<-|[<-|[<-|[<-|[<-|[<-|[<-|[<-|[<-|[]]]]]]]]]]; auto 12.
Qed.

(** An option string with [help] or [version] as its action, in front of
    the command line, ends the parse at once. *)
Lemma parse_args_exits_first p flag a rest :
  String.eqb flag "--" = false ->
  parse_optional p flag = Optional (Some a, flag, None) ->
  takes_value a = false ->
  action a = Help \/ (exists v, action a = Version v) ->
  parse_args p (flag :: rest)
  = SystemExit (match classify p false rest with
                | Some _ => 0
                | None => 2
                end).
Proof.
  intros Hdd Hpo Htv Hact. unfold parse_args, parse_known_args.
  cbn [classify]. rewrite Hdd, Hpo.
  destruct (classify p false rest) as [toks|]; [|reflexivity].
  cbn [consume consume_optional]. rewrite Htv. cbn [take_actions].
  unfold take_action.
  destruct Hact as [-> | [v ->]]; reflexivity.
Qed.

(** X7: with [-h], [--help], [-V] or [--version] as the first argument,
    [main] exits, whatever follows and although the required options are
    missing: with status 0, or with status 2 when a later argument is an
    ambiguous abbreviation.  Nothing is logged or built. *)
Theorem help_or_version_first_never_serves version model languages
    supported_uri flag rest env :
  In flag ["-h"; "--help"; "-V"; "--version"] ->
  exists c,
    (c = 0%Z \/ c = 2%Z) /\
    main version model languages supported_uri (flag :: rest) (init_world env)
    = Exit c (init_world env).
Proof.
  intros Hflag.
  pose proof (main_cases version model languages supported_uri
                (flag :: rest) env) as Hc.
  set (p := build_parser version model (os_environ_get env "OPENAI_API_KEY"))
    in *.
  set (help := {| option_strings := ["-h"; "--help"]; dest := "help";
                  required := false; default := PyNone; action := Help |}).
  set (vers := {| option_strings := ["-V"; "--version"]; dest := "version";
                  required := false; default := PyNone;
                  action := Version version |}).
  assert (Hp : parse_args p (flag :: rest)
               = SystemExit (match classify p false rest with
                             | Some _ => 0
                             | None => 2
                             end)).
  { cbn [In] in Hflag.
    destruct Hflag as [<-|[<-|[<-|[<-|[]]]]].
    - apply (parse_args_exits_first p _ help); try reflexivity. now left.
    - apply (parse_args_exits_first p _ help); try reflexivity. now left.
    - apply (parse_args_exits_first p _ vers); try reflexivity.
      right. now exists version.
    - apply (parse_args_exits_first p _ vers); try reflexivity.
      right. now exists version. }
  rewrite Hp in Hc. eexists. split; [|exact Hc].
  destruct (classify p false rest); [now left | now right].
Qed.

(** A string that does not start with a dash is an argument, not an
    option. *)
Lemma parse_optional_positional p tok :
  Str.startswith tok "-" = false ->
  String.eqb tok "--" = false /\ parse_optional p tok = Positional.
Proof.
  unfold Str.startswith. destruct tok as [|c r]; [now split|].
  simpl. destruct (ascii_dec "-" c) as [<-|Hne].
  - destruct r; discriminate.
  - intros _. assert (Hc : Ascii.eqb c "-" = false)
      by (apply Ascii.eqb_neq; congruence).
    split.
    + now rewrite Hc.
    + unfold parse_optional. now rewrite Hc.
Qed.

(** Once a string is left over, the parse cannot succeed. *)
Lemma leftover_never_parses p args rest toks st :
  incl rest args ->
  classify p false rest = Some toks ->
  extras st <> [] ->
  match consume p toks st with
  | inl st' => extras st' <> []
  | inr _ => True
  end.
Proof.
  intros Hincl Hc Hne.
  destruct (consume p toks st) as [st'|c] eqn:Hco; [|exact I].
  apply (consume_preserves p args (fun st => extras st <> [])) with
    (n := length toks) (toks := toks) (st := st); try assumption.
  - intros a vs st1 st2 _ H1. unfold take_action.
    destruct (action a); try discriminate;
      intros [= <-]; exact H1.
  - intros st1 s _. simpl. destruct (extras st1); discriminate.
  - apply le_n.
  - eapply classify_ok; eauto.
Qed.

(** X8: [main] declares no positional argument.  A command line whose
    first string does not start with a dash never starts the server:
    [main] exits with status 2, or 0 when [help] or [version] follows, and
    nothing is logged or built. *)
Theorem leading_positional_never_serves version model languages
    supported_uri tok rest env :
  Str.startswith tok "-" = false ->
  exists c,
    (c = 0%Z \/ c = 2%Z) /\
    main version model languages supported_uri (tok :: rest) (init_world env)
    = Exit c (init_world env).
Proof.
  intros Htok.
  pose proof (main_cases version model languages supported_uri
                (tok :: rest) env) as Hc.
  set (p := build_parser version model (os_environ_get env "OPENAI_API_KEY"))
    in *.
  destruct (parse_optional_positional p tok Htok) as [Hdd Hpos].
  assert (Hp : exists c, parse_args p (tok :: rest) = SystemExit c).
  { unfold parse_args, parse_known_args. cbn [classify].
    rewrite Hdd, Hpos.
    destruct (classify p false rest) as [toks|] eqn:Hcl; [|eauto].
    cbn [consume]. cbn [namespace seen extras app].
    match goal with |- context [consume p toks ?s] => set (st := s) end.
    pose proof (leftover_never_parses p (tok :: rest) rest toks st
                  (fun x Hx => or_intror Hx) Hcl) as Hleft.
    destruct (consume p toks st) as [st'|c]; [|eauto].
    destruct (missing_required p st'); [eauto|].
    destruct (extras st') eqn:He; [|eauto].
    exfalso. now apply Hleft. }
  destruct Hp as [c Hp]. rewrite Hp in Hc.
  exists c. split; [|exact Hc]. eapply parse_args_exit; eauto.
Qed.

(** ** The further properties on the concrete deployment *)

Module EntryExamples.

Import Sample.

Definition local_parser : ArgumentParser :=
  build_parser version openai_default_model
    (os_environ_get ∅ "OPENAI_API_KEY").

Lemma serving_needs_api_and_uri_witness :
  was_given local_parser api_flags local_argv = true /\
  was_given local_parser uri_flags local_argv = true /\
  exists ns a u,
    (forall c, heap Examples.local_world
                 !! cli_args (handler_factory Examples.local_running c)
               = Some (ONamespace ns)) /\
    supplied local_parser api_flags local_argv = Some [a] /\
    ns !! "api" = Some (if String.eqb a "--" then PyList [] else PyStr a) /\
    supplied local_parser uri_flags local_argv = Some [u] /\
    ns !! "uri" = Some (PyStr u) /\
    heap Examples.local_world !! server Examples.local_running
    = Some (OServer u) /\
    supported_uri u = true.
Proof.
  apply (serving_needs_api_and_uri version openai_default_model
           whisper_languages supported_uri local_argv ∅
           Examples.local_running Examples.local_world).
  vm_compute; reflexivity.
Defined.

(** The API string may be anything, the empty list included; the URI
    is the last one given. *)
Example api_double_dash_still_serves :
  match Examples.started
          ["--uri"; "ftp://host"; "--api=--"; "--uri=unix:///run/w.sock"] ∅
  with
  | Ret r w =>
      match heap w with
      | [ONamespace ns; _; OServer u; _] =>
          ns !! "api" = Some (PyList []) /\ u = "unix:///run/w.sock"
      | _ => False
      end
  | _ => False
  end.
Proof. vm_compute. split; reflexivity. Qed.

Lemma exit_leaves_nothing_behind_witness :
  (0 = 0 \/ 0 = 2)%Z /\ init_world ∅ = init_world ∅.
Proof.
  apply (exit_leaves_nothing_behind version openai_default_model
           whisper_languages supported_uri ["--api"; "openai"; "-V"] ∅
           0%Z (init_world ∅)).
  vm_compute; reflexivity.
Defined.

Definition ftp_argv : list string :=
  ["--api"; "openai"; "--uri"; "ftp://host"; "--debug"].
Definition ftp_world : World := world_of (Examples.started ftp_argv ∅).

Lemma raises_only_value_error_witness :
  ValueError = ValueError /\
  environ ftp_world = ∅ /\
  exists ns,
    parse_args local_parser ftp_argv = Parsed ns /\
    ((exists fs,
        ns !! "log_format" = Some (PyStr fs) /\
        fs <> "" /\ Logging.search fs = false /\
        heap ftp_world = [ONamespace ns] /\ trace ftp_world = [Alloc 0])
     \/
     (exists level format,
        ((exists u, ns !! "uri" = Some (PyStr u) /\ supported_uri u = false)
         \/ ns !! "uri" = Some (PyList [])) /\
        ns !! "log_format" = Some format /\
        format_accepted format = true /\
        heap ftp_world
        = [ONamespace ns; OInfo (make_info version whisper_languages)] /\
        trace ftp_world
        = [Alloc 0; BasicConfig level format; LogArgs DEBUG 0; Alloc 1])).
Proof.
  apply (raises_only_value_error version openai_default_model
           whisper_languages supported_uri ftp_argv ∅ ValueError ftp_world).
  vm_compute; reflexivity.
Defined.

(** The three ways to a [ValueError]. *)
Example value_errors :
  (exists w, Examples.started (local_argv ++ ["--log-format"; "plain"]) ∅
             = Raise ValueError w /\ trace w = [Alloc 0]) /\
  (exists w, Examples.started ["--api"; "x"; "--uri=--"] ∅
             = Raise ValueError w /\ length (trace w) = 4%nat) /\
  (exists w, Examples.started ftp_argv ∅
             = Raise ValueError w /\ length (trace w) = 4%nat).
Proof.
  split; [|split]; eexists; vm_compute; split; reflexivity.
Qed.

Definition debug_argv : list string :=
  local_argv ++ ["-d"; "--log-format=%(message)s"].
Definition debug_running : Running :=
  running_of (Examples.started debug_argv ∅).
Definition debug_world : World := world_of (Examples.started debug_argv ∅).

Lemma logging_follows_debug_and_log_format_witness :
  exists format,
    trace debug_world
    = [Alloc 0;
       BasicConfig (if was_given local_parser debug_flags debug_argv
                    then DEBUG else INFO) format;
       LogArgs DEBUG 0; Alloc 1; Alloc 2; LogMsg INFO "Ready"; Alloc 3] /\
    format_accepted format = true /\
    match supplied local_parser log_format_flags debug_argv with
    | None => format = PyStr BASIC_FORMAT
    | Some vs =>
        exists s, vs = [s] /\
          format = if String.eqb s "--" then PyList [] else PyStr s
    end.
Proof.
  apply (logging_follows_debug_and_log_format version openai_default_model
           whisper_languages supported_uri debug_argv ∅ debug_running
           debug_world).
  vm_compute; reflexivity.
Defined.

Example logging_at_debug_level :
  trace debug_world
  = [Alloc 0; BasicConfig DEBUG (PyStr "%(message)s"); LogArgs DEBUG 0;
     Alloc 1; Alloc 2; LogMsg INFO "Ready"; Alloc 3].
Proof. vm_compute. reflexivity. Qed.

Definition tuned_argv : list string :=
  local_argv ++ ["-m"; "large"; "--lang=nb"; "-l"; "en"; "-p--";
                 "--openai-api-key"; "sk-cli"].
Definition tuned_env : gmap string string := {["OPENAI_API_KEY" := "sk-env"]}.
Definition tuned_running : Running :=
  running_of (Examples.started tuned_argv tuned_env).
Definition tuned_world : World :=
  world_of (Examples.started tuned_argv tuned_env).
Definition tuned_parser : ArgumentParser :=
  build_parser version openai_default_model
    (os_environ_get tuned_env "OPENAI_API_KEY").

Lemma optional_settings_default_or_given_witness :
  exists ns,
    (forall c, heap tuned_world !! cli_args (handler_factory tuned_running c)
               = Some (ONamespace ns)) /\
    stored_option tuned_parser openai_model_flags tuned_argv
      (PyStr openai_default_model) (ns !! "openai_model") /\
    stored_option tuned_parser language_flags tuned_argv PyNone
      (ns !! "language") /\
    stored_option tuned_parser prompt_flags tuned_argv PyNone
      (ns !! "prompt") /\
    stored_option tuned_parser openai_api_key_flags tuned_argv
      (os_environ_get tuned_env "OPENAI_API_KEY") (ns !! "openai_api_key").
Proof.
  apply (optional_settings_default_or_given version openai_default_model
           whisper_languages supported_uri tuned_argv tuned_env
           tuned_running tuned_world).
  vm_compute; reflexivity.
Defined.

Example tuned_settings :
  match heap tuned_world with
  | ONamespace ns :: _ =>
      map (fun k => ns !! k)
        ["openai_model"; "language"; "prompt"; "openai_api_key"]
  | _ => []
  end
  = [Some (PyStr "large"); Some (PyStr "en"); Some (PyList []);
     Some (PyStr "sk-cli")].
Proof. vm_compute. reflexivity. Qed.

Lemma namespace_attributes_witness :
  exists ns,
    (forall c, heap Examples.local_world
                 !! cli_args (handler_factory Examples.local_running c)
               = Some (ONamespace ns)) /\
    forall k,
      is_Some (ns !! k) <->
      In k ["api"; "uri"; "openai_api_key"; "openai_model"; "language";
            "prompt"; "temperature"; "debug"; "log_format"].
Proof.
  apply (namespace_attributes version openai_default_model
           whisper_languages supported_uri local_argv ∅
           Examples.local_running Examples.local_world).
  vm_compute; reflexivity.
Defined.

Lemma help_or_version_first_never_serves_witness :
  exists c,
    (c = 0%Z \/ c = 2%Z) /\
    program ("-V" :: ["--bogus"; "extra"]) (init_world ∅)
    = Exit c (init_world ∅).
Proof.
  apply (help_or_version_first_never_serves version openai_default_model
           whisper_languages supported_uri "-V" ["--bogus"; "extra"] ∅).
  simpl. right. right. left. reflexivity.
Defined.

Lemma leading_positional_never_serves_witness :
  exists c,
    (c = 0%Z \/ c = 2%Z) /\
    program ("serve" :: local_argv) (init_world ∅) = Exit c (init_world ∅).
Proof.
  apply (leading_positional_never_serves version openai_default_model
           whisper_languages supported_uri "serve" local_argv ∅).
  reflexivity.
Defined.

End EntryExamples.

(** ** What is logged, and what is read from the environment *)


(** X10: [OPENAI_API_KEY] is the only thing [main] reads from the
    environment.  Two environments that agree on it give the same exit
    status, the same exception or the same factory, and the same store and
    trace. *)
Theorem only_openai_api_key_is_read version model languages supported_uri
    argv env env' :
  env !! "OPENAI_API_KEY" = env' !! "OPENAI_API_KEY" ->
  match main version model languages supported_uri argv (init_world env),
        main version model languages supported_uri argv (init_world env')
  with
  | Ret r w, Ret r' w' => r = r' /\ heap w = heap w' /\ trace w = trace w'
  | Exit c w, Exit c' w' => c = c' /\ heap w = heap w' /\ trace w = trace w'
  | Raise e w, Raise e' w' => e = e' /\ heap w = heap w' /\ trace w = trace w'
  | _, _ => False
  end.
Proof.
  intros Henv.
  pose proof (main_cases version model languages supported_uri argv env)
    as Hc.
  pose proof (main_cases version model languages supported_uri argv env')
    as Hc'.
  assert (Hkey : os_environ_get env' "OPENAI_API_KEY"
                 = os_environ_get env "OPENAI_API_KEY")
    by (unfold os_environ_get; now rewrite Henv).
  rewrite Hkey in Hc'.
  destruct (parse_args _ argv) as [ns|c].
  - destruct Hc as (u & format & Hu & _ & Hf & _ & Hm).
    destruct Hc' as (u' & format' & Hu' & _ & Hf' & _ & Hm').
    cbv zeta in Hm, Hm'.
    assert (u' = u) as -> by congruence.
    assert (format' = format) as -> by congruence.
    rewrite Hm, Hm'. destruct (format_accepted format); [|repeat split].
    destruct u as [| |u| |l]; try (repeat split).
    destruct (supported_uri u); repeat split.
  - rewrite Hc, Hc'. repeat split.
Qed.

Module LogExamples.

Import Sample.

Definition secret_env : gmap string string :=
  {["OPENAI_API_KEY" := "sk-test"; "HOME" := "/root"]}.
Definition secret_argv : list string := cloud_argv ++ ["--debug"].
Definition secret_world : World :=
  world_of (Examples.started secret_argv secret_env).


(** The namespace that is logged at DEBUG level holds the key. *)
Example logged_namespace_holds_the_key :
  firstn 3 (trace secret_world)
  = [Alloc 0; BasicConfig DEBUG (PyStr BASIC_FORMAT); LogArgs DEBUG 0] /\
  match heap secret_world !! 0%nat with
  | Some (ONamespace ns) => ns !! "openai_api_key"
  | _ => None
  end = Some (PyStr "sk-test").
Proof. vm_compute. split; reflexivity. Qed.

Definition other_env : gmap string string :=
  {["OPENAI_API_KEY" := "sk-test"; "LANG" := "nb_NO.UTF-8"]}.

Lemma only_openai_api_key_is_read_witness :
  match Examples.started secret_argv secret_env,
        Examples.started secret_argv other_env
  with
  | Ret r w, Ret r' w' => r = r' /\ heap w = heap w' /\ trace w = trace w'
  | Exit c w, Exit c' w' => c = c' /\ heap w = heap w' /\ trace w = trace w'
  | Raise e w, Raise e' w' => e = e' /\ heap w = heap w' /\ trace w = trace w'
  | _, _ => False
  end.
Proof.
  apply (only_openai_api_key_is_read version openai_default_model
           whisper_languages supported_uri secret_argv secret_env other_env).
  vm_compute; reflexivity.
Defined.

End LogExamples.
